(** * chess960-explorer: scripts/analyze_positions.py

    A shallow embedding of the parallel Stockfish driver
    [scripts/analyze_positions.py] and the properties of its protocol
    session, result aggregation, queue population and checkpointing.

    Python values are modelled as follows.
    - [str] is [string]; a character is a code point below 256.
    - [int] is [Z] (Python integers are unbounded).
    - A [dict] keyed by small integers ([lines] in [analyze]) is a
      [gmap Z _]; the [results] dict, whose iteration order decides what
      [json.dump] writes, is an insertion-ordered association list.
    - An exception swallowed by a bare [except:] that returns [None] is the
      [None] of [option]; exceptions that escape, and loops that never
      end, are outcomes of the session monad [M]. *)

From Stdlib Require Import ZArith QArith Ascii String DecimalString List Lia.
From stdpp Require Import base option list sorting gmap strings.

Local Open Scope Z_scope.

(** ** Python string primitives *)

Module PyStr.

(** [str.isspace] on a single character: the code points Python treats
    as whitespace in [str.split()], [str.strip()] and [int()]. *)
Definition is_space (c : ascii) : bool :=
  let n := N_of_ascii c in
  ((9 <=? n) && (n <=? 13) || (28 <=? n) && (n <=? 32)
   || (n =? 133) || (n =? 160))%N.

Fixpoint has_space (s : string) : bool :=
  match s with
  | EmptyString => false
  | String c r => is_space c || has_space r
  end.

(** The word collected so far is kept reversed in [cur]. *)
Definition flush (cur : string) : list string :=
  match cur with
  | EmptyString => []
  | _ => [String.rev cur]
  end.

Fixpoint split_go (cur s : string) : list string :=
  match s with
  | EmptyString => flush cur
  | String c r =>
      if is_space c then flush cur ++ split_go EmptyString r
      else split_go (String c cur) r
  end.

(** [s.split()] *)
Definition split (s : string) : list string := split_go EmptyString s.

Fixpoint lstrip (s : string) : string :=
  match s with
  | EmptyString => EmptyString
  | String c r => if is_space c then lstrip r else s
  end.

Definition rstrip (s : string) : string :=
  String.rev (lstrip (String.rev s)).

(** [s.strip()] *)
Definition strip (s : string) : string := rstrip (lstrip s).

(** [s.startswith(p)] *)
Definition startswith (p s : string) : bool := String.prefix p s.

Fixpoint find_from (i : nat) (sub s : string) : option nat :=
  if String.prefix sub s then Some i
  else match s with
       | EmptyString => None
       | String _ r => find_from (S i) sub r
       end.

(** [s.find(sub)]: the lowest index of [sub] in [s], or [-1]. *)
Definition find (sub s : string) : Z :=
  match find_from 0 sub s with
  | Some i => Z.of_nat i
  | None => -1
  end.

(** [sub in s] *)
Definition contains (sub s : string) : bool :=
  bool_decide (is_Some (find_from 0 sub s)).

Fixpoint drop (n : nat) (s : string) : string :=
  match n, s with
  | O, _ => s
  | S n', String _ r => drop n' r
  | S _, EmptyString => EmptyString
  end.

(** [s[i:]]; a negative [i] counts from the end of the string. *)
Definition slice_from (i : Z) (s : string) : string :=
  if 0 <=? i then drop (Z.to_nat i) s
  else drop (Z.to_nat (Z.of_nat (String.length s) + i)) s.

(** [parts.index(key)]; [None] stands for the [ValueError]. *)
Fixpoint index (key : string) (parts : list string) : option nat :=
  match parts with
  | [] => None
  | p :: ps => if String.eqb p key then Some O else S <$> index key ps
  end.

Definition digit (c : ascii) : option Z :=
  let n := N_of_ascii c in
  if ((48 <=? n) && (n <=? 57))%N then Some (Z.of_N n - 48) else None.

(** Decimal digits, with single underscores allowed between digits. *)
Fixpoint int_digits (after_digit : bool) (acc : Z) (s : string) : option Z :=
  match s with
  | EmptyString => if after_digit then Some acc else None
  | String c r =>
      match digit c with
      | Some d => int_digits true (10 * acc + d) r
      | None =>
          if Ascii.eqb c "_" && after_digit then int_digits false acc r
          else None
      end
  end.

(** [int(s)] for a string [s]; [None] stands for the [ValueError]. *)
Definition int (s : string) : option Z :=
  match strip s with
  | String "+" r => int_digits false 0 r
  | String "-" r => Z.opp <$> int_digits false 0 r
  | t => int_digits false 0 t
  end.

(** [int(x)] where [x] may be [None]; then it raises [TypeError]. *)
Definition int_of (x : option string) : option Z := x ≫= int.

(** [str(n)] for an integer [n]. *)
Definition of_int (n : Z) : string :=
  DecimalString.NilZero.string_of_int (Z.to_int n).

End PyStr.

(** ** Configuration *)

Definition SEARCH_TIME_MS : Z := 20000.
Definition THREADS_PER_ENGINE : Z := 4.
Definition NUM_WORKERS : Z := 2.
Definition MULTI_PV : Z := 3.

(** ** Parsing of an engine output line *)

(** The value stored under ["eval"]: the integer sentinel of a mate score,
    or the float [score_val / 100], kept as the exact quotient that the
    float rounds. *)
Inductive pyeval :=
  | EvalInt (z : Z)
  | EvalFloat (q : Q).

(** The dict built by [_parse_info].  The key ["mate"] is only present for
    mate scores, and every reader goes through [l.get("mate")]. *)
Record parsed := {
  depth : Z;
  pv_num : Z;
  moves : string;
  eval : pyeval;
  mate : option Z;
}.

Inductive score_type := Cp | Mate.

(** [self._extract(line, key)] *)
Definition _extract (line key : string) : option string :=
  let parts := PyStr.split line in
  idx ← PyStr.index key parts;
  parts !! (idx + 1)%nat.

(** [x or "1"] for an optional string [x]. *)
Definition or_default (x : option string) (d : string) : string :=
  match x with
  | Some EmptyString | None => d
  | Some s => s
  end.

(** [self._parse_info(line)].  Every exception inside the [try] ends in
    [return None], as does the explicit [return None]. *)
Definition _parse_info (line : string) : option parsed :=
  depth ← PyStr.int_of (_extract line "depth");
  pv_num ← PyStr.int (or_default (_extract line "multipv") "1");
  score ←
    (if PyStr.contains " score cp " line then
       score_val ← PyStr.int_of (_extract line "score cp");
       Some (Some (Cp, score_val))
     else if PyStr.contains " score mate " line then
       score_val ← PyStr.int_of (_extract line "score mate");
       Some (Some (Mate, score_val))
     else Some None);
  '(ty, score_val) ← score;
  let pv_start := PyStr.find " pv " line + 4 in
  let moves := PyStr.strip (PyStr.slice_from pv_start line) in
  Some match ty with
       | Mate =>
           {| depth := depth; pv_num := pv_num; moves := moves;
              mate := Some score_val;
              eval := EvalInt (if 0 <? score_val then 9999 else -9999) |}
       | Cp =>
           {| depth := depth; pv_num := pv_num; moves := moves;
              mate := None;
              eval := EvalFloat (score_val # 100) |}
       end.

(** ** The engine process and the session monad *)

(** One engine process as its owner sees it.  [stdout] holds the lines the
    engine still emits (without their newline); after them the stream is
    at end of input.  [pipe] is the number of writes its stdin still
    accepts before the pipe breaks ([None]: it never does), and [sent]
    logs the commands written so far. *)
Record process := {
  pipe : option nat;
  stdout : list string;
  sent : list string;
}.

Inductive exn := BrokenPipeError.

(** What a call on the session does: it returns, an exception escapes
    it, or it is still looping when the fuel runs out. *)
Inductive outcome (A : Type) :=
  | Ret (a : A) (p : process)
  | Raise (e : exn) (p : process)
  | OutOfFuel.
Arguments Ret {A} a p.
Arguments Raise {A} e p.
Arguments OutOfFuel {A}.

Definition M (A : Type) : Type := process → outcome A.

Global Instance session_ret : MRet M := λ A a p, Ret a p.

Global Instance session_bind : MBind M := λ A B k m p,
  match m p with
  | Ret a p' => k a p'
  | Raise e p' => Raise e p'
  | OutOfFuel => OutOfFuel
  end.

(** [self.process.stdout.readline()]: the next line, or the empty string
    once the stream is at end of input. *)
Definition readline : M string := λ p,
  match stdout p with
  | [] => Ret EmptyString p
  | l :: rest => Ret l {| pipe := pipe p; stdout := rest; sent := sent p |}
  end.

(** ** StockfishWorker *)

(** [self._send(cmd)] *)
Definition _send (cmd : string) : M unit := λ p,
  match pipe p with
  | Some O => Raise BrokenPipeError p
  | Some (S n) =>
      Ret tt {| pipe := Some n; stdout := stdout p; sent := sent p ++ [cmd] |}
  | None =>
      Ret tt {| pipe := None; stdout := stdout p; sent := sent p ++ [cmd] |}
  end.

(** [self._wait_for(target)]: one unit of fuel per turn of [while True]. *)
Fixpoint _wait_for (fuel : nat) (target : string) : M unit :=
  match fuel with
  | O => λ _, OutOfFuel
  | S fuel' =>
      line ← readline;
      if String.eqb (PyStr.strip line) target then mret tt
      else _wait_for fuel' target
  end.

(** [self.start()], on the process that [Popen] created. *)
Definition start (fuel : nat) : M unit :=
  _send "uci";;
  _wait_for fuel "uciok";;
  _send "setoption name UCI_Chess960 value true";;
  _send ("setoption name Threads value " +:+ PyStr.of_int THREADS_PER_ENGINE);;
  _send ("setoption name MultiPV value " +:+ PyStr.of_int MULTI_PV);;
  _send "isready";;
  _wait_for fuel "readyok".

(** One entry of the ["pvs"] list. *)
Record variant := {
  v_moves : string;
  v_eval : pyeval;
  v_mate : option Z;
}.

(** The dict returned by [analyze]. *)
Record analysis := {
  a_pvs : list variant;
  a_depth : Z;
}.

(** The local state of the loop of [analyze]: [lines] and [final_depth]. *)
Definition acc : Type := gmap Z parsed * Z.

(** The body of [if parsed:]. *)
Definition retain (st : acc) (p : parsed) : acc :=
  let '(lines, final_depth) := st in
  let lines' :=
    match lines !! pv_num p with
    | None => <[pv_num p := p]> lines
    | Some old =>
        if depth old <? depth p then <[pv_num p := p]> lines else lines
    end in
  (lines', if final_depth <? depth p then depth p else final_depth).

(** What one line that is not the terminal line does to the state. *)
Definition analyze_line (st : acc) (line : string) : acc :=
  if PyStr.contains "info depth" line && PyStr.contains " pv " line then
    match _parse_info line with
    | Some p => retain st p
    | None => st
    end
  else st.

Fixpoint analyze_loop (fuel : nat) (st : acc) : M acc :=
  match fuel with
  | O => λ _, OutOfFuel
  | S fuel' =>
      raw ← readline;
      let line := PyStr.strip raw in
      if PyStr.startswith "bestmove" line then mret st
      else analyze_loop fuel' (analyze_line st line)
  end.

(** [range(lo, hi)] *)
Definition range (lo hi : Z) : list Z :=
  (λ k, lo + Z.of_nat k) <$> seq 0 (Z.to_nat (hi - lo)).

Definition variant_of (l : parsed) : variant :=
  {| v_moves := moves l; v_eval := eval l; v_mate := mate l |}.

(** The list [result] built after the loop. *)
Definition emit (lines : gmap Z parsed) : list variant :=
  omap (λ i, variant_of <$> lines !! i) (range 1 (MULTI_PV + 1)).

(** [self.analyze(fen)] *)
Definition analyze (fuel : nat) (fen : string) : M analysis :=
  _send "ucinewgame";;
  _send ("position fen " +:+ fen);;
  _send ("go movetime " +:+ PyStr.of_int SEARCH_TIME_MS);;
  st ← analyze_loop fuel (∅, 0);
  mret {| a_pvs := emit st.1; a_depth := st.2 |}.

(** [self.quit()]; [self.process] is set, and [wait()] returns once the
    engine has exited. *)
Definition quit : M unit := _send "quit".

(** ** The results dict *)

(** A key of [results]: a position id as the input file has it (an
    integer or a string), or a string key read back from the output
    file. *)
Inductive pykey :=
  | KInt (z : Z)
  | KStr (s : string).

Global Instance pykey_eq_dec : EqDecision pykey.
Proof. solve_decision. Defined.

(** [str(k)] *)
Definition py_str (k : pykey) : string :=
  match k with
  | KInt z => PyStr.of_int z
  | KStr s => s
  end.

(** A Python dict in insertion order. *)
Definition dict (V : Type) : Type := list (pykey * V).

Fixpoint dict_get {V} (k : pykey) (d : dict V) : option V :=
  match d with
  | [] => None
  | (k', v) :: r => if decide (k' = k) then Some v else dict_get k r
  end.

(** [k in d] *)
Definition dict_in {V} (k : pykey) (d : dict V) : bool :=
  bool_decide (is_Some (dict_get k d)).

(** [d[k] = v]: an existing key keeps its place. *)
Fixpoint dict_set {V} (k : pykey) (v : V) (d : dict V) : dict V :=
  match d with
  | [] => [(k, v)]
  | (k', v') :: r =>
      if decide (k' = k) then (k', v) :: r else (k', v') :: dict_set k v r
  end.

(** The value stored per position. *)
Record job_result := {
  fen : string;
  jr_depth : Z;
  jr_pvs : list variant;
  analyzedAt : string;
}.

(** ** worker_thread *)

(** The state the workers share besides the queue: [results], the two
    fields of [progress], and the readings [datetime.now().isoformat()]
    still has to return. *)
Record shared := {
  results : dict job_result;
  progress_done : Z;
  progress_last : string;
  clock : list string;
}.

(** The block under [with lock:]. *)
Definition record_result (pos_id : pykey) (fen : string) (result : analysis)
    (sh : shared) : shared :=
  {| results :=
       dict_set pos_id
         {| fen := fen; jr_depth := a_depth result; jr_pvs := a_pvs result;
            analyzedAt := hd EmptyString (clock sh) |}
         (results sh);
     progress_done := progress_done sh + 1;
     progress_last :=
       "#" +:+ py_str pos_id +:+ " @ d" +:+ PyStr.of_int (a_depth result);
     clock := tl (clock sh) |}.

(** How a worker thread ends. *)
Inductive thread_end :=
  | Finished
  | Died (e : exn)
  | Hung.

(** The [while True] loop of [worker_thread] followed by [worker.quit()],
    for one worker pulling from [task_queue]; it returns what is left of
    the queue. *)
Fixpoint worker_loop (fuel : nat) (p : process)
    (task_queue : list (pykey * string)) (sh : shared)
    : thread_end * list (pykey * string) * shared :=
  match task_queue with
  | [] =>
      match quit p with
      | Ret _ _ => (Finished, [], sh)
      | Raise e _ => (Died e, [], sh)
      | OutOfFuel => (Hung, [], sh)
      end
  | (pos_id, fen) :: rest =>
      match analyze fuel fen p with
      | Ret result p' =>
          worker_loop fuel p' rest (record_result pos_id fen result sh)
      | Raise e _ => (Died e, rest, sh)
      | OutOfFuel => (Hung, rest, sh)
      end
  end.

Definition worker_thread (fuel : nat) (p : process)
    (task_queue : list (pykey * string)) (sh : shared)
    : thread_end * list (pykey * string) * shared :=
  match start fuel p with
  | Ret _ p' => worker_loop fuel p' task_queue sh
  | Raise e _ => (Died e, task_queue, sh)
  | OutOfFuel => (Hung, task_queue, sh)
  end.

(** ** main: loading, queue population, saving *)

Record position := {
  id : pykey;
  pos_fen : string;
}.

(** What [json.dump] writes for a dict: its members in order, every key
    turned into a string. *)
Definition json_members {V} (d : dict V) : list (string * V) :=
  (λ kv, (py_str kv.1, kv.2)) <$> d.

(** What [json.load] builds from the members of an object: a later
    duplicate of a key replaces the value of the earlier one. *)
Definition json_load {V} (members : list (string * V)) : dict V :=
  fold_left (λ d kv, dict_set (KStr kv.1) kv.2 d) members [].

(** "Load existing results".  [file] is [None] when the output file is
    missing or is not JSON, and otherwise the members of its object. *)
Definition load_results (file : option (list (string * job_result)))
    : dict job_result :=
  match file with
  | Some members => json_load members
  | None => []
  end.

(** "Create task queue" *)
Fixpoint fill_queue (results : dict job_result) (positions : list position)
    : list (pykey * string) :=
  match positions with
  | [] => []
  | pos :: rest =>
      if negb (dict_in (KStr (py_str (id pos))) results)
         && negb (dict_in (id pos) results)
      then (id pos, pos_fen pos) :: fill_queue results rest
      else fill_queue results rest
  end.

(** The output file: [None] while it does not exist, else its text. *)
Definition output_file : Type := option string.

(** The output file as a stop of the process would leave it, and the
    text that the open file object has taken but not yet passed on to
    the file. *)
Record disk := {
  on_disk : output_file;
  held : string;
}.

(** The steps of a save.  The file object is buffered: how much of the
    text it holds it passes on to the file after a write depends on the
    size of its buffer, and each write carries that number of
    characters. *)
Inductive fs_op :=
  | Truncate
  | Put (chunk : string) (passed : nat)
  | Close.

Fixpoint str_take (n : nat) (s : string) : string :=
  match n, s with
  | S n', String c r => String c (str_take n' r)
  | _, _ => EmptyString
  end.

Definition run_op (d : disk) (op : fs_op) : disk :=
  match op with
  | Truncate => {| on_disk := Some EmptyString; held := EmptyString |}
  | Put chunk passed =>
      let text := held d +:+ chunk in
      {| on_disk :=
           Some (default EmptyString (on_disk d) +:+ str_take passed text);
         held := PyStr.drop passed text |}
  | Close =>
      {| on_disk := Some (default EmptyString (on_disk d) +:+ held d);
         held := EmptyString |}
  end.

(** "Save": [open(OUTPUT_PATH, "w")], which empties the file, the writes
    of [json.dump], and the close at the end of the [with] block, which
    passes on what is still held.  [writes] are the pieces of text
    [json.dump] writes, each with the number of characters the file
    object passes on after it. *)
Definition save (writes : list (string * nat)) : list fs_op :=
  Truncate :: ((λ w, Put w.1 w.2) <$> writes) ++ [Close].

(** The output file when the process stops after [k] steps of [ops]. *)
Definition crash_after (k : nat) (ops : list fs_op) (f : output_file)
    : output_file :=
  on_disk
    (fold_left run_op (take k ops) {| on_disk := f; held := EmptyString |}).

Definition concat_str (chunks : list string) : string :=
  fold_right String.append EmptyString chunks.

(** ** Vocabulary of the statements *)

(** The pipe still takes [n] more writes. *)
Definition accepts (n : nat) (p : process) : Prop :=
  match pipe p with
  | None => True
  | Some k => (n ≤ k)%nat
  end.

Global Instance accepts_dec n p : Decision (accepts n p).
Proof. unfold accepts. destruct (pipe p); apply _. Defined.

(** The process after [cmds] went down the pipe. *)
Definition wrote (cmds : list string) (p : process) : process :=
  {| pipe := (λ k, k - length cmds)%nat <$> pipe p;
     stdout := stdout p;
     sent := sent p ++ cmds |}.

(** The process after its output was read up to [rest]. *)
Definition read_to (rest : list string) (p : process) : process :=
  {| pipe := pipe p; stdout := rest; sent := sent p |}.

(** Where the first line that is [target] once stripped stands in [out]:
    the number of lines before it and the lines after it. *)
Fixpoint after_token (target : string) (out : list string)
    : option (nat * list string) :=
  match out with
  | [] => None
  | l :: r =>
      if String.eqb (PyStr.strip l) target then Some (O, r)
      else (λ nr, (S nr.1, nr.2)) <$> after_token target r
  end.

(** [out] cut at its first terminal line: the stripped lines before it
    and the lines after it. *)
Fixpoint until_bestmove (out : list string)
    : option (list string * list string) :=
  match out with
  | [] => None
  | l :: r =>
      if PyStr.startswith "bestmove" (PyStr.strip l) then Some ([], r)
      else (λ pr, (PyStr.strip l :: pr.1, pr.2)) <$> until_bestmove r
  end.

(** The output carries both acknowledgments of the handshake, in order. *)
Definition handshake_acked (out : list string) : bool :=
  match after_token "uciok" out with
  | Some (_, rest) => bool_decide (is_Some (after_token "readyok" rest))
  | None => false
  end.

(** The lines of a search that [analyze] hands to [_parse_info]. *)
Definition info_lines (pre : list string) : list string :=
  filter (λ l, PyStr.contains "info depth" l && PyStr.contains " pv " l) pre.

(** The dicts [_parse_info] returned for them. *)
Definition parsed_lines (pre : list string) : list parsed :=
  omap _parse_info (info_lines pre).

(** The line carries neither score token. *)
Definition lacks_score (line : string) : Prop :=
  PyStr.contains " score cp " line = false
  ∧ PyStr.contains " score mate " line = false.


(** The commands [analyze] writes before it reads. *)
Definition go_commands (fen : string) : list string :=
  ["ucinewgame"; "position fen " +:+ fen;
   "go movetime " +:+ PyStr.of_int SEARCH_TIME_MS].

(** The commands [start] writes. *)
Definition handshake_commands : list string :=
  ["uci"; "setoption name UCI_Chess960 value true";
   "setoption name Threads value " +:+ PyStr.of_int THREADS_PER_ENGINE;
   "setoption name MultiPV value " +:+ PyStr.of_int MULTI_PV; "isready"].

(** The dict [analyze] returns for the final state of its loop. *)
Definition analysis_of (st : acc) : analysis :=
  {| a_pvs := emit st.1; a_depth := st.2 |}.

(** [p] is the earliest of the deepest lines of [sub]. *)
Definition first_deepest (sub : list parsed) (p : parsed) : Prop :=
  ∃ pre post, sub = pre ++ p :: post
    ∧ Forall (λ q, depth q < depth p) pre
    ∧ Forall (λ q, depth q ≤ depth p) post.

(** [p] is the most recent of the deepest lines of [sub]. *)
Definition last_deepest (sub : list parsed) (p : parsed) : Prop :=
  ∃ pre post, sub = pre ++ p :: post
    ∧ Forall (λ q, depth q ≤ depth p) pre
    ∧ Forall (λ q, depth q < depth p) post.

(** The lines of rank [r] among [ps], in the order they were seen. *)
Definition of_rank (r : Z) (ps : list parsed) : list parsed :=
  filter (λ p, pv_num p = r) ps.

(** The entry [v] of the variants list carries the moves, the
    evaluation and the mate count of the line [l]. *)
Definition reports (l : parsed) (v : variant) : Prop :=
  v_moves v = moves l ∧ v_eval v = eval l ∧ v_mate v = mate l.

(** [pvs] lists, by ascending rank, the lines that [lines] holds for
    the ranks 1 to [MULTI_PV], and nothing for a rank it does not hold. *)
Definition in_rank_order (lines : gmap Z parsed) (pvs : list variant) : Prop :=
  ∃ ranks : list Z,
    StronglySorted Z.lt ranks
    ∧ (∀ i, i ∈ ranks ↔ 1 ≤ i ≤ MULTI_PV ∧ is_Some (lines !! i))
    ∧ Forall2 (λ i v, ∃ l, lines !! i = Some l ∧ reports l v) ranks pvs.

(** The output file holds a result for the id, under the string the id
    is saved as. *)
Definition persisted (file : option (list (string * job_result)))
    (i : pykey) : Prop :=
  match file with
  | Some members => py_str i ∈ members.*1
  | None => False
  end.

Global Instance persisted_dec file i : Decision (persisted file i).
Proof. unfold persisted. destruct file; apply _. Defined.

(** What a results dict can become: more results are recorded in it, and
    it is saved and loaded back by a later run. *)
Inductive evolves (d : dict job_result) : dict job_result → Prop :=
  | evolves_refl : evolves d d
  | evolves_record d' k v : evolves d d' → evolves d (dict_set k v d')
  | evolves_reload d' :
      evolves d d' → evolves d (json_load (json_members d')).

(** The dict holds the id, as it is or as the string it is saved as. *)
Definition known (k : pykey) (d : dict job_result) : Prop :=
  dict_in k d = true ∨ dict_in (KStr (py_str k)) d = true.

(** The job cannot complete on this process: the pipe breaks under the
    commands of the search, or the output ends before a terminal line. *)
Definition job_fails (p : process) : Prop :=
  ¬ accepts 3 p ∨ until_bestmove (stdout p) = None.

(** [s] between double quotes. *)
Definition quoted (s : string) : string :=
  String "034" (s +:+ String "034" EmptyString).

(** A line feed followed by [s]. *)
Definition nl (s : string) : string := String "010" s.

(** The output holds a terminal line for each of [n] searches in a row,
    each at most [fuel] lines after the one before. *)
Fixpoint answers (fuel n : nat) (out : list string) : bool :=
  match n with
  | O => true
  | S n' =>
      match until_bestmove out with
      | Some (pre, rest) => (length pre <? fuel)%nat && answers fuel n' rest
      | None => false
      end
  end.

(** A stored result without variants, at depth 0. *)
Definition empty_result (v : job_result) : Prop :=
  jr_depth v = 0 ∧ jr_pvs v = [].

Global Instance known_dec k d : Decision (known k d).
Proof. unfold known. apply _. Defined.

(** * Properties *)

(** ** Strings *)

Example split_ex :
  PyStr.split "  info depth 12  multipv 2 "
  = ["info"; "depth"; "12"; "multipv"; "2"].
Proof. reflexivity. Qed.

Example int_ex :
  (PyStr.int "-12", PyStr.int "+1_0", PyStr.int "1__0", PyStr.int " 7 ",
   PyStr.int "x")
  = (Some (-12), Some 10, None, Some 7, None).
Proof. reflexivity. Qed.

Example of_int_ex :
  (PyStr.of_int (-5), PyStr.of_int 0, PyStr.of_int 12) = ("-5", "0", "12").
Proof. reflexivity. Qed.

Example extract_ex :
  _extract "info depth 12 multipv 2 score cp 35 pv e2e4" "depth" = Some "12".
Proof. reflexivity. Qed.

Lemma has_space_rev_app a b :
  PyStr.has_space (String.rev_app a b)
  = PyStr.has_space a || PyStr.has_space b.
Proof.
  revert b. induction a as [|c a IH]; intros b; simpl; [done|].
  rewrite IH. simpl. by destruct (PyStr.is_space c), (PyStr.has_space a).
Qed.

Lemma has_space_rev s : PyStr.has_space (String.rev s) = PyStr.has_space s.
Proof.
  unfold String.rev. rewrite has_space_rev_app. simpl. apply orb_false_r.
Qed.

Lemma flush_no_space cur :
  PyStr.has_space cur = false →
  Forall (λ t, PyStr.has_space t = false) (PyStr.flush cur).
Proof.
  intros H. destruct cur; simpl; [constructor|].
  repeat constructor. by rewrite has_space_rev.
Qed.

Lemma split_go_no_space s cur :
  PyStr.has_space cur = false →
  Forall (λ t, PyStr.has_space t = false) (PyStr.split_go cur s).
Proof.
  revert cur. induction s as [|c s IH]; intros cur H; simpl.
  - by apply flush_no_space.
  - destruct (PyStr.is_space c) eqn:Hc.
    + apply Forall_app. split; [by apply flush_no_space | by apply IH].
    + apply IH. simpl. by rewrite Hc.
Qed.

(** No word of [s.split()] holds a whitespace character. *)
Lemma split_no_space s :
  Forall (λ t, PyStr.has_space t = false) (PyStr.split s).
Proof. by apply split_go_no_space. Qed.

Lemma index_elem key parts i : PyStr.index key parts = Some i → key ∈ parts.
Proof.
  revert i. induction parts as [|p ps IH]; intros i; simpl; [done|].
  destruct (String.eqb p key) eqn:E.
  - apply String.eqb_eq in E as ->. intros _. apply list_elem_of_here.
  - destruct (PyStr.index key ps); [|done].
    intros _. apply list_elem_of_further. by eapply IH.
Qed.

(** [_extract] finds nothing under a key that holds a space: the words
    it searches through hold none. *)
Lemma extract_spaced_key line key :
  PyStr.has_space key = true → _extract line key = None.
Proof.
  intros Hk. unfold _extract.
  destruct (PyStr.index key (PyStr.split line)) as [i|] eqn:E; [|done].
  apply index_elem in E.
  pose proof (split_no_space line) as Hall.
  rewrite Forall_forall in Hall. apply Hall in E. congruence.
Qed.

(** No line makes [_parse_info] return a dict: with a score token in the
    line the lookup of the score value fails, and without one the
    function gives up. *)
Lemma parse_info_None line : _parse_info line = None.
Proof.
  unfold _parse_info.
  destruct (PyStr.int_of (_extract line "depth")); [|done]. simpl.
  destruct (PyStr.int (or_default (_extract line "multipv") "1")); [|done].
  simpl.
  rewrite !extract_spaced_key by reflexivity. simpl.
  by destruct (PyStr.contains " score cp " line),
       (PyStr.contains " score mate " line).
Qed.

(** ** The session *)

Lemma bind_run {A B} (m : M A) (k : A → M B) p :
  (m ≫= k) p
  = match m p with
    | Ret a p' => k a p'
    | Raise e p' => Raise e p'
    | OutOfFuel => OutOfFuel
    end.
Proof. reflexivity. Qed.

Lemma send_ok cmd p : accepts 1 p → _send cmd p = Ret tt (wrote [cmd] p).
Proof.
  unfold accepts, _send, wrote. destruct p as [[[|k]|] out log]; simpl.
  - lia.
  - intros _. do 3 f_equal. lia.
  - done.
Qed.

Lemma send_broken cmd p : ¬ accepts 1 p → _send cmd p = Raise BrokenPipeError p.
Proof.
  unfold accepts, _send. destruct p as [[[|k]|] out log]; simpl; [done|lia|tauto].
Qed.

Lemma wrote_wrote a b p : wrote b (wrote a p) = wrote (a ++ b) p.
Proof.
  unfold wrote. destruct p as [[k|] out log]; simpl; f_equal.
  - f_equal. rewrite length_app. lia.
  - by rewrite app_assoc.
  - by rewrite app_assoc.
Qed.

Lemma accepts_wrote n cmds p :
  accepts (length cmds + n) p → accepts n (wrote cmds p).
Proof. unfold accepts, wrote. destruct (pipe p); simpl; [lia|done]. Qed.

Lemma accepts_le n m p : (n ≤ m)%nat → accepts m p → accepts n p.
Proof. unfold accepts. destruct (pipe p); [lia|done]. Qed.

Lemma read_to_wrote rest cmds p :
  read_to rest (wrote cmds p) = wrote cmds (read_to rest p).
Proof. reflexivity. Qed.

(** [_wait_for] returns exactly when the token is on the stream and the
    fuel reaches it; otherwise it is still reading when the fuel ends. *)
Lemma wait_for_run fuel target p :
  target ≠ EmptyString →
  _wait_for fuel target p
  = match after_token target (stdout p) with
    | Some (n, rest) =>
        if (n <? fuel)%nat then Ret tt (read_to rest p) else OutOfFuel
    | None => OutOfFuel
    end.
Proof.
  intros Ht. revert p. induction fuel as [|fuel IH]; intros p.
  - simpl. destruct (after_token target (stdout p)) as [[n rest]|]; done.
  - simpl. rewrite bind_run. unfold readline.
    destruct p as [k out log]. destruct out as [|l out]; simpl.
    + destruct target as [|c t]; [done|]. rewrite IH. done.
    + destruct (String.eqb (PyStr.strip l) target) eqn:E; [done|].
      rewrite IH. simpl.
      destruct (after_token target out) as [[n rest]|]; simpl; [|done].
      change (S n <? S fuel)%nat with (n <? fuel)%nat. done.
Qed.

(** The same for the loop of [analyze] and the terminal line. *)
Lemma analyze_loop_run fuel st p :
  analyze_loop fuel st p
  = match until_bestmove (stdout p) with
    | Some (pre, rest) =>
        if (length pre <? fuel)%nat
        then Ret (fold_left analyze_line pre st) (read_to rest p)
        else OutOfFuel
    | None => OutOfFuel
    end.
Proof.
  revert st p. induction fuel as [|fuel IH]; intros st p.
  - simpl. destruct (until_bestmove (stdout p)) as [[pre rest]|]; done.
  - simpl. rewrite bind_run. unfold readline.
    destruct p as [k out log]. destruct out as [|l out]; simpl.
    + rewrite IH. done.
    + destruct (PyStr.startswith "bestmove" (PyStr.strip l)) eqn:E; [done|].
      rewrite IH. simpl.
      destruct (until_bestmove out) as [[pre rest]|]; simpl; [|done].
      change (S (length pre) <? S fuel)%nat with (length pre <? fuel)%nat.
      done.
Qed.

Ltac send_step H :=
  rewrite bind_run, send_ok;
  [ cbv beta iota; rewrite ?wrote_wrote; simpl app
  | repeat apply accepts_wrote; eapply accepts_le; [|exact H]; simpl; lia ].

(** [analyze] on a process whose pipe holds: it returns once the
    terminal line is read, having folded the lines before it. *)
Lemma analyze_run fuel fen p :
  accepts 3 p →
  analyze fuel fen p
  = match until_bestmove (stdout p) with
    | Some (pre, rest) =>
        if (length pre <? fuel)%nat
        then Ret (analysis_of (fold_left analyze_line pre (∅, 0)))
               (read_to rest (wrote (go_commands fen) p))
        else OutOfFuel
    | None => OutOfFuel
    end.
Proof.
  intros Ha. unfold analyze.
  send_step Ha. send_step Ha. send_step Ha.
  rewrite bind_run, analyze_loop_run. simpl stdout.
  destruct (until_bestmove (stdout p)) as [[pre rest]|]; [|done].
  destruct (length pre <? fuel)%nat; done.
Qed.

(** With a pipe that breaks within the three writes, [analyze] raises. *)
Lemma analyze_broken fuel fen p :
  ¬ accepts 3 p → ∃ p', analyze fuel fen p = Raise BrokenPipeError p'.
Proof.
  intros Ha. unfold analyze.
  destruct (decide (accepts 1 p)) as [H1|H1].
  2:{ rewrite bind_run, send_broken by done. eauto. }
  rewrite bind_run, send_ok by done. cbv beta iota.
  destruct (decide (accepts 1 (wrote ["ucinewgame"] p))) as [H2|H2].
  2:{ rewrite bind_run, send_broken by done. eauto. }
  rewrite bind_run, send_ok by done. cbv beta iota.
  rewrite bind_run, send_broken; [eauto|].
  intros H3. apply Ha. revert H1 H2 H3. unfold accepts, wrote.
  destruct (pipe p); simpl; [lia|done].
Qed.

Lemma start_run fuel p :
  accepts 5 p →
  start fuel p
  = match after_token "uciok" (stdout p) with
    | Some (n, r1) =>
        if (n <? fuel)%nat then
          match after_token "readyok" r1 with
          | Some (m, r2) =>
              if (m <? fuel)%nat
              then Ret tt (read_to r2 (wrote handshake_commands p))
              else OutOfFuel
          | None => OutOfFuel
          end
        else OutOfFuel
    | None => OutOfFuel
    end.
Proof.
  intros Ha. unfold start.
  send_step Ha.
  rewrite bind_run, wait_for_run by done. simpl stdout.
  destruct (after_token "uciok" (stdout p)) as [[n r1]|]; [|done].
  destruct (n <? fuel)%nat; [|done].
  rewrite read_to_wrote.
  assert (Hr : accepts 5 (read_to r1 p)) by exact Ha.
  send_step Hr. send_step Hr. send_step Hr. send_step Hr.
  rewrite wait_for_run by done. simpl stdout.
  destruct (after_token "readyok" r1) as [[m r2]|]; [|done].
  destruct (m <? fuel)%nat; done.
Qed.

(** ** Parsing *)

(** C2.  A line that carries a score is not parsed into a score: on
    [score mate 3], on [score mate -2] and on [score cp 35] alike
    [_parse_info] returns [None] where the specification asks for the
    display evaluations 9999, -9999 and 0.35, because [_extract] is asked
    for the two-word keys ["score cp"] and ["score mate"], which no
    word of the split line can equal.  No line at all is parsed. *)
Theorem parse_info_loses_every_score :
  _parse_info "info depth 12 seldepth 15 multipv 1 score mate 3 nodes 100 pv e2e4 e7e5"
  = None
  ∧ _parse_info "info depth 9 seldepth 11 multipv 2 score mate -2 nodes 80 pv g1f3 g8f6"
    = None
  ∧ _parse_info "info depth 20 seldepth 28 multipv 1 score cp 35 nodes 5000 pv d2d4 d7d5"
    = None
  ∧ (∀ line, _extract line "score cp" = None ∧ _extract line "score mate" = None)
  ∧ (∀ line, _parse_info line = None).
Proof.
  split; [by vm_compute|]. split; [by vm_compute|]. split; [by vm_compute|].
  split.
  - intros line. split; by apply extract_spaced_key.
  - apply parse_info_None.
Qed.

(** C7.  A line without a score token yields no result, and the loop of
    [analyze] leaves the retained lines and the tracked depth as they
    were. *)
Theorem scoreless_line_changes_nothing (line : string) (st : acc) :
  lacks_score line →
  _parse_info line = None ∧ analyze_line st line = st.
Proof.
  intros [Hcp Hmate].
  assert (Hp : _parse_info line = None).
  { unfold _parse_info.
    destruct (PyStr.int_of (_extract line "depth")); [|done]. simpl.
    destruct (PyStr.int (or_default (_extract line "multipv") "1")); [|done].
    simpl. by rewrite Hcp, Hmate. }
  split; [done|]. unfold analyze_line. rewrite Hp.
  by destruct (PyStr.contains "info depth" line && PyStr.contains " pv " line).
Qed.

Lemma scoreless_line_changes_nothing_witness :
  let line := "info depth 7 multipv 2 nodes 40 pv e2e4 e7e5" in
  let st : acc := (∅, 5) in
  lacks_score line ∧ _parse_info line = None ∧ analyze_line st line = st.
Proof.
  intros line st.
  assert (H : lacks_score line) by (split; reflexivity).
  split; [exact H|].
  exact (scoreless_line_changes_nothing line st H).
Defined.

(** ** The handshake *)

(** C3, as the code has it.  When the output ends before both
    acknowledgments have arrived, [start] never returns; and while the
    pipe takes its commands it does not fail either: [_wait_for] reads
    the empty line of the ended stream again and again, whatever the
    fuel. *)
Theorem start_waits_forever_at_end_of_input (fuel : nat) (p : process) :
  handshake_acked (stdout p) = false →
  (accepts 5 p → start fuel p = OutOfFuel)
  ∧ (∀ u p', start fuel p ≠ Ret u p').
Proof.
  intros Hack.
  assert (Hrun : accepts 5 p → start fuel p = OutOfFuel).
  { intros Ha. rewrite start_run by done. unfold handshake_acked in Hack.
    destruct (after_token "uciok" (stdout p)) as [[n r1]|]; [|done].
    destruct (n <? fuel)%nat; [|done].
    destruct (after_token "readyok" r1) as [[m r2]|]; [|done].
    by apply bool_decide_eq_false in Hack as []. }
  split; [done|]. intros u p' Hret.
  destruct (decide (accepts 5 p)) as [Ha|Ha]; [by rewrite Hrun in Hret|].
  revert Hret. unfold start.
  repeat first
    [ rewrite bind_run
    | match goal with
      | |- context [_send ?c ?q] =>
          destruct (decide (accepts 1 q));
          [ rewrite (send_ok c q) by done
          | rewrite (send_broken c q) by done ]
      end
    | progress cbv beta iota
    | rewrite wait_for_run by done
    | match goal with
      | |- context [after_token ?t ?o] =>
          destruct (after_token t o) as [[? ?]|]
      | |- context [(?a <? fuel)%nat] => destruct (a <? fuel)%nat
      end
    | done ].
  intros _. apply Ha. clear Hack Hrun.
  repeat match goal with
         | H : accepts _ _ |- _ => revert H
         end.
  unfold accepts, wrote, read_to. simpl. destruct (pipe p); simpl; [lia|done].
Qed.

Lemma start_waits_forever_at_end_of_input_witness :
  let p := {| pipe := None; stdout := ["id name Stockfish"; "uciok"];
              sent := [] |} in
  handshake_acked (stdout p) = false ∧ start 50 p = OutOfFuel.
Proof.
  intros p. split; [reflexivity|].
  exact (proj1 (start_waits_forever_at_end_of_input 50 p eq_refl) I).
Defined.

(** C3 fails as the specification states it: on an engine that closes
    its output without a word, [start] raises nothing, however long it
    is run. *)
Lemma start_raises_nothing_at_end_of_input :
  ¬ ∃ fuel e p',
      start fuel {| pipe := None; stdout := []; sent := [] |} = Raise e p'.
Proof.
  intros (fuel & e & p' & H). by rewrite start_run in H.
Qed.

(** ** Retention of lines *)

Lemma retain_other (st : acc) (p : parsed) (r : Z) :
  pv_num p ≠ r → (retain st p).1 !! r = st.1 !! r.
Proof.
  intros Hr. destruct st as [lines fd]. simpl.
  destruct (lines !! pv_num p) as [old|].
  - destruct (depth old <? depth p); [by rewrite lookup_insert_ne|done].
  - by rewrite lookup_insert_ne.
Qed.

Lemma retain_same (st : acc) (p : parsed) :
  (retain st p).1 !! pv_num p
  = match st.1 !! pv_num p with
    | Some old => if depth old <? depth p then Some p else Some old
    | None => Some p
    end.
Proof.
  destruct st as [lines fd]. simpl.
  destruct (lines !! pv_num p) as [old|] eqn:E.
  - destruct (depth old <? depth p); [by rewrite lookup_insert_eq|done].
  - by rewrite lookup_insert_eq.
Qed.

(** A line no deeper than the one retained for its rank is ignored. *)
Lemma retain_ignores_no_deeper (lines : gmap Z parsed) fd p old :
  lines !! pv_num p = Some old → depth p ≤ depth old →
  (retain (lines, fd) p).1 = lines.
Proof.
  intros Hold Hle. simpl. rewrite Hold.
  destruct (Z.ltb_spec (depth old) (depth p)); [lia|done].
Qed.

Lemma retain_depth (st : acc) (p : parsed) :
  (retain st p).2 = Z.max st.2 (depth p).
Proof.
  destruct st as [lines fd]. simpl.
  destruct (Z.ltb_spec fd (depth p)); lia.
Qed.

(** The loop passes to [retain] exactly the lines that parsed. *)
Lemma analyze_lines_retain (pre : list string) (st : acc) :
  fold_left analyze_line pre st = fold_left retain (parsed_lines pre) st.
Proof.
  revert st. induction pre as [|l pre IH]; intros st; [done|].
  change (fold_left analyze_line (l :: pre) st)
    with (fold_left analyze_line pre (analyze_line st l)).
  rewrite IH. unfold parsed_lines, info_lines, analyze_line.
  rewrite filter_cons.
  destruct (PyStr.contains "info depth" l && PyStr.contains " pv " l) eqn:E.
  - simpl. by destruct (_parse_info l).
  - done.
Qed.

(** C5, as the code has it.  Through any sequence of parsed lines the
    line retained for a rank is the deepest one seen for that rank, and
    among equally deep ones the earliest: a later line replaces it only
    when strictly deeper, so a line of lower or equal depth is ignored. *)
Theorem retained_line_is_first_deepest (ps : list parsed) (r : Z) :
  match (fold_left retain ps (∅, 0)).1 !! r with
  | Some p => first_deepest (of_rank r ps) p
  | None => of_rank r ps = []
  end.
Proof.
  induction ps as [|x ps IH] using rev_ind; [done|].
  rewrite fold_left_app. simpl. unfold of_rank in *. rewrite filter_app.
  set (st := fold_left retain ps (∅, 0)) in *.
  destruct (decide (pv_num x = r)) as [<-|Hne].
  - rewrite filter_cons, decide_True by done. rewrite filter_nil.
    rewrite retain_same.
    destruct (st.1 !! pv_num x) as [old|].
    + destruct IH as (pre & post & Hsub & Hpre & Hpost).
      destruct (Z.ltb_spec (depth old) (depth x)) as [Hlt|Hge].
      * exists (pre ++ old :: post), []. rewrite Hsub. split; [done|].
        split; [|constructor].
        apply Forall_app. split.
        -- eapply Forall_impl; [exact Hpre|]. simpl. lia.
        -- constructor; [done|].
           eapply Forall_impl; [exact Hpost|]. simpl. lia.
      * exists pre, (post ++ [x]). rewrite Hsub.
        split; [by rewrite <- app_assoc|]. split; [done|].
        apply Forall_app. split; [done|]. by repeat constructor.
    + rewrite IH. exists [], []. by repeat constructor.
  - rewrite filter_cons, decide_False by done. rewrite filter_nil, app_nil_r.
    by rewrite retain_other.
Qed.

(** C5 fails as the specification states it: of two lines of rank 1 and
    the same depth the first is retained, not the most recent one. *)
Lemma tie_keeps_the_earlier_line :
  let a := {| depth := 10; pv_num := 1; moves := "e2e4 e7e5";
              eval := EvalFloat (35 # 100); mate := None |} in
  let b := {| depth := 10; pv_num := 1; moves := "d2d4 d7d5";
              eval := EvalFloat (30 # 100); mate := None |} in
  (fold_left retain [a; b] (∅, 0)).1 !! 1 = Some a
  ∧ ¬ last_deepest (of_rank 1 [a; b]) a.
Proof.
  intros a b. split; [by vm_compute|].
  intros (pre & post & Hsub & _ & Hpost).
  change (of_rank 1 [a; b]) with [a; b] in Hsub.
  destruct pre as [|y pre].
  - injection Hsub as <-. apply Forall_cons in Hpost as [H _].
    simpl in H. lia.
  - injection Hsub as _ Hsub. destruct pre as [|z pre].
    + injection Hsub as Hba _. subst a b. discriminate Hba.
    + injection Hsub as _ Hsub. by destruct pre.
Qed.

(** ** The result of a search *)

(** Only a call that reached the terminal line returns. *)
Lemma analyze_ret_inv fuel fen p r p' :
  analyze fuel fen p = Ret r p' →
  ∃ pre rest,
    until_bestmove (stdout p) = Some (pre, rest)
    ∧ (length pre < fuel)%nat
    ∧ accepts 3 p
    ∧ r = analysis_of (fold_left retain (parsed_lines pre) (∅, 0))
    ∧ p' = read_to rest (wrote (go_commands fen) p).
Proof.
  intros H. destruct (decide (accepts 3 p)) as [Ha|Ha].
  - rewrite analyze_run in H by done.
    destruct (until_bestmove (stdout p)) as [[pre rest]|]; [|done].
    destruct (Nat.ltb_spec (length pre) fuel); [|done].
    injection H as <- <-. exists pre, rest.
    by rewrite analyze_lines_retain.
  - destruct (analyze_broken fuel fen p Ha) as [q Hq]. congruence.
Qed.

Lemma emit_from (lines : gmap Z parsed) (rs : list Z) :
  StronglySorted Z.lt rs →
  ∃ ranks : list Z,
    StronglySorted Z.lt ranks
    ∧ (∀ i, i ∈ ranks ↔ i ∈ rs ∧ is_Some (lines !! i))
    ∧ Forall2 (λ i v, ∃ l, lines !! i = Some l ∧ reports l v) ranks
        (omap (λ i, variant_of <$> lines !! i) rs).
Proof.
  induction rs as [|i rs IH]; intros Hs.
  - exists []. split; [constructor|]. split; [|constructor].
    intros i. rewrite elem_of_nil. tauto.
  - apply StronglySorted_inv in Hs as [Hs Hi].
    destruct (IH Hs) as (ranks & Hsorted & Hmem & Hall). simpl.
    destruct (lines !! i) as [l|] eqn:E; simpl.
    + exists (i :: ranks). split; [|split].
      * constructor; [done|]. apply Forall_forall. intros j Hj.
        apply Hmem in Hj as [Hj _]. rewrite Forall_forall in Hi. by apply Hi.
      * intros j. rewrite !elem_of_cons, Hmem. split.
        -- intros [->|[? ?]]; [rewrite E; eauto|eauto].
        -- intros [[->|?] ?]; eauto.
      * constructor; [|done]. exists l. by repeat split.
    + exists ranks. split; [done|]. split; [|done].
      intros j. rewrite elem_of_cons, Hmem. split.
      * intros [? ?]; eauto.
      * intros [[->|?] Hj]; [|done]. rewrite E in Hj. by destruct Hj.
Qed.

(** The list built after the loop, for any retained lines. *)
Lemma emit_in_rank_order (lines : gmap Z parsed) :
  in_rank_order lines (emit lines).
Proof.
  destruct (emit_from lines (range 1 (MULTI_PV + 1))) as (ranks & ? & Hm & ?).
  { repeat constructor. }
  exists ranks. split; [done|]. split; [|done].
  intros i. rewrite Hm.
  change (range 1 (MULTI_PV + 1)) with [1; 2; 3].
  rewrite !elem_of_cons, elem_of_nil. unfold MULTI_PV.
  split; intros [? ?]; (split; [lia|done]).
Qed.

Lemma emit_length (lines : gmap Z parsed) :
  Z.of_nat (length (emit lines)) ≤ MULTI_PV.
Proof.
  unfold emit. change (range 1 (MULTI_PV + 1)) with [1; 2; 3]. simpl.
  unfold MULTI_PV.
  destruct (lines !! 1), (lines !! 2), (lines !! 3); simpl; lia.
Qed.

(** A call of [analyze] that reaches the terminal line returns the
    state its loop ended in. *)
Lemma analyze_returns fuel fen p pre rest :
  accepts 3 p →
  until_bestmove (stdout p) = Some (pre, rest) →
  (length pre < fuel)%nat →
  analyze fuel fen p
  = Ret (analysis_of (fold_left retain (parsed_lines pre) (∅, 0)))
      (read_to rest (wrote (go_commands fen) p)).
Proof.
  intros Ha Hcut Hfuel. rewrite analyze_run, Hcut by done.
  destruct (Nat.ltb_spec (length pre) fuel); [|lia].
  by rewrite analyze_lines_retain.
Qed.

(** C8.  Whatever lines are retained when the terminal line comes, the
    list built from them holds, by ascending rank from 1 to [MULTI_PV],
    one entry for each rank that has a retained line, carrying the
    moves, the evaluation and the mate count of that line, and nothing
    for a rank without one; so it has at most [MULTI_PV] entries.  That
    list, built from the lines retained through the search, is what
    [analyze] returns on the terminal line. *)
Theorem emit_lists_retained_lines_in_rank_order
    (lines : gmap Z parsed) fuel fen p pre rest :
  in_rank_order lines (emit lines)
  ∧ Z.of_nat (length (emit lines)) ≤ MULTI_PV
  ∧ (accepts 3 p →
     until_bestmove (stdout p) = Some (pre, rest) →
     (length pre < fuel)%nat →
     ∃ r,
       analyze fuel fen p = Ret r (read_to rest (wrote (go_commands fen) p))
       ∧ a_pvs r = emit (fold_left retain (parsed_lines pre) (∅, 0)).1
       ∧ Z.of_nat (length (a_pvs r)) ≤ MULTI_PV).
Proof.
  split; [apply emit_in_rank_order|]. split; [apply emit_length|].
  intros Ha Hcut Hfuel. eexists. split; [by apply analyze_returns|].
  split; [done|apply emit_length].
Qed.

Lemma emit_lists_retained_lines_in_rank_order_witness :
  let line r d m e :=
    {| depth := d; pv_num := r; moves := m; eval := e; mate := None |} in
  let a := line 1 22 "e2e4 e7e5 g1f3" (EvalFloat (31 # 100)) in
  let c := line 3 21 "c2c4 e7e5" (EvalFloat (18 # 100)) in
  let d := line 4 21 "g1f3 d7d5" (EvalFloat (15 # 100)) in
  let lines : gmap Z parsed := (fold_left retain [c; a; d] (∅, 0)).1 in
  let p := {| pipe := None; stdout := ["bestmove e2e4 ponder e7e5"];
              sent := [] |} in
  let fen := "bnrqkbnr/pppppppp/8/8/8/8/PPPPPPPP/BNRQKBNR w KQkq - 0 1" in
  emit lines
  = [ {| v_moves := "e2e4 e7e5 g1f3"; v_eval := EvalFloat (31 # 100);
         v_mate := None |};
      {| v_moves := "c2c4 e7e5"; v_eval := EvalFloat (18 # 100);
         v_mate := None |} ]
  ∧ in_rank_order lines (emit lines)
  ∧ Z.of_nat (length (emit lines)) ≤ MULTI_PV
  ∧ ∃ r,
      analyze 8 fen p = Ret r (read_to [] (wrote (go_commands fen) p))
      ∧ a_pvs r = emit (fold_left retain (parsed_lines []) (∅, 0)).1
      ∧ Z.of_nat (length (a_pvs r)) ≤ MULTI_PV.
Proof.
  intros line a c d lines p fen.
  destruct (emit_lists_retained_lines_in_rank_order lines 8 fen p [] [])
    as (Horder & Hlen & Hrun).
  split; [by vm_compute|]. split; [exact Horder|]. split; [exact Hlen|].
  apply Hrun; [exact I|reflexivity|simpl; lia].
Defined.





Lemma parsed_lines_nil (pre : list string) : parsed_lines pre = [].
Proof.
  unfold parsed_lines. induction (info_lines pre) as [|l ls IH]; [done|].
  simpl. by rewrite parse_info_None.
Qed.




(** ** The results dict *)

Lemma dict_in_elem {V} (k : pykey) (d : dict V) :
  dict_in k d = true ↔ k ∈ d.*1.
Proof.
  unfold dict_in. rewrite bool_decide_eq_true.
  induction d as [|[k' v] d IH]; simpl.
  - rewrite elem_of_nil. split; [by intros []|done].
  - rewrite elem_of_cons. destruct (decide (k' = k)) as [->|Hne].
    + split; eauto.
    + rewrite IH. split; [eauto|]. by intros [->|?].
Qed.

Lemma dict_set_keys {V} (k k' : pykey) (v : V) (d : dict V) :
  k' ∈ (dict_set k v d).*1 ↔ k' = k ∨ k' ∈ d.*1.
Proof.
  induction d as [|[k0 v0] d IH]; simpl.
  - rewrite elem_of_cons, elem_of_nil. tauto.
  - destruct (decide (k0 = k)) as [->|Hne]; simpl.
    + rewrite !elem_of_cons. tauto.
    + rewrite !elem_of_cons, IH. tauto.
Qed.

Lemma dict_get_set {V} (k : pykey) (v : V) (d : dict V) :
  dict_get k (dict_set k v d) = Some v.
Proof.
  induction d as [|[k0 v0] d IH]; simpl.
  - by rewrite decide_True.
  - destruct (decide (k0 = k)) as [->|Hne]; simpl.
    + by rewrite decide_True.
    + by rewrite decide_False.
Qed.

Lemma json_load_keys_from {V} (members : list (string * V)) (d : dict V) k :
  k ∈ (fold_left (λ d kv, dict_set (KStr kv.1) kv.2 d) members d).*1
  ↔ k ∈ d.*1 ∨ ∃ s, k = KStr s ∧ s ∈ members.*1.
Proof.
  revert d. induction members as [|[s v] ms IH]; intros d; simpl.
  - split; [eauto|]. intros [?|(s & _ & Hs)]; [done|].
    by apply elem_of_nil in Hs.
  - rewrite IH, dict_set_keys. split.
    + intros [[->|?]|(s' & -> & ?)]; eauto.
      * right. exists s. split; [done|]. apply list_elem_of_here.
      * right. exists s'. split; [done|]. by apply list_elem_of_further.
    + intros [?|(s' & -> & Hs)]; [eauto|].
      apply elem_of_cons in Hs as [->|?]; eauto.
Qed.

(** The keys of a loaded dict are the keys of the file, as strings. *)
Lemma json_load_keys {V} (members : list (string * V)) k :
  k ∈ (json_load members).*1 ↔ ∃ s, k = KStr s ∧ s ∈ members.*1.
Proof.
  unfold json_load. rewrite json_load_keys_from. simpl.
  rewrite elem_of_nil. tauto.
Qed.

Lemma json_members_keys {V} (d : dict V) s :
  s ∈ (json_members d).*1 ↔ ∃ k, py_str k = s ∧ k ∈ d.*1.
Proof.
  unfold json_members. rewrite <- list_fmap_compose.
  rewrite list_elem_of_fmap. split.
  - intros ([k v] & -> & Hin). exists k. split; [done|].
    apply list_elem_of_fmap. by exists (k, v).
  - intros (k & <- & Hin). apply list_elem_of_fmap in Hin as ([k' v] & -> & ?).
    by exists (k', v).
Qed.

Lemma known_record k k' v d : known k d → known k (dict_set k' v d).
Proof.
  unfold known. rewrite !dict_in_elem, !dict_set_keys. tauto.
Qed.

Lemma known_reload k d : known k d → known k (json_load (json_members d)).
Proof.
  unfold known. rewrite !dict_in_elem. intros H. right.
  apply json_load_keys. exists (py_str k). split; [done|].
  apply json_members_keys. destruct H as [H|H].
  - by exists k.
  - by exists (KStr (py_str k)).
Qed.

(** A key once held is held for good. *)
Lemma known_evolves k d d' : evolves d d' → known k d → known k d'.
Proof.
  induction 1; intros Hk;
    [done | apply known_record; auto | apply known_reload; auto].
Qed.

Lemma fill_queue_ids results positions i :
  i ∈ (fill_queue results positions).*1
  ↔ i ∈ id <$> positions
    ∧ dict_in (KStr (py_str i)) results = false
    ∧ dict_in i results = false.
Proof.
  induction positions as [|pos rest IH]; simpl.
  - rewrite elem_of_nil. tauto.
  - destruct (dict_in (KStr (py_str (id pos))) results) eqn:E1;
      destruct (dict_in (id pos) results) eqn:E2; simpl;
      rewrite ?elem_of_cons, IH; split;
      try (intros [[->|?] [? ?]]; [congruence|tauto]);
      try tauto.
    all: intros [->|?]; tauto.
Qed.

(** A known id is not queued. *)
Lemma known_not_queued results positions i :
  known i results → i ∉ (fill_queue results positions).*1.
Proof.
  intros [H|H]; rewrite fill_queue_ids; intros (_ & ? & ?); congruence.
Qed.

(** ** Queue population *)

Lemma filter_absent (i : pykey) (l : list (pykey * string)) :
  i ∉ l.*1 → filter (λ job, job.1 = i) l = [].
Proof.
  induction l as [|[k f] l IH]; [done|]. simpl.
  rewrite not_elem_of_cons. intros [Hne Hl].
  rewrite filter_cons, decide_False by (simpl; congruence). auto.
Qed.

Lemma fill_queue_once results positions i :
  NoDup (id <$> positions) →
  i ∈ (fill_queue results positions).*1 →
  length (filter (λ job, job.1 = i) (fill_queue results positions)) = 1%nat.
Proof.
  induction positions as [|pos rest IH]; simpl.
  - intros _ H. by apply elem_of_nil in H.
  - intros [Hfresh Hnd]%NoDup_cons.
    destruct (negb (dict_in (KStr (py_str (id pos))) results)
              && negb (dict_in (id pos) results)); [|by apply IH].
    simpl. rewrite elem_of_cons, filter_cons. simpl.
    destruct (decide (id pos = i)) as [<-|Hne].
    + intros _. rewrite filter_absent; [done|].
      rewrite fill_queue_ids. tauto.
    + intros [?|?]; [congruence|by apply IH].
Qed.

Lemma dict_in_false {V} (k : pykey) (d : dict V) :
  dict_in k d = false ↔ k ∉ d.*1.
Proof.
  rewrite <- dict_in_elem. destruct (dict_in k d); intuition congruence.
Qed.

(** On the dict loaded at startup, the test of the queue loop is the
    test that the file does not hold the id. *)
Lemma wanted_iff_not_persisted file i :
  dict_in (KStr (py_str i)) (load_results file) = false
  ∧ dict_in i (load_results file) = false
  ↔ ¬ persisted file i.
Proof.
  rewrite !dict_in_false. destruct file as [members|]; simpl.
  - rewrite !json_load_keys. split.
    + intros [H _] Hp. apply H. by exists (py_str i).
    + intros Hp. split.
      * intros (s & [= <-] & Hs). done.
      * intros (s & -> & Hs). done.
  - split; [tauto|]. intros _. split; apply not_elem_of_nil.
Qed.

(** C6.  After the queue is filled, an id of the input list is in the
    queue exactly when the loaded output file holds no result for it,
    and then, the ids of the input being distinct, exactly once. *)
Theorem queue_holds_each_unpersisted_id_once file positions pos :
  NoDup (id <$> positions) →
  pos ∈ positions →
  let queue := fill_queue (load_results file) positions in
  (id pos ∈ queue.*1 ↔ ¬ persisted file (id pos))
  ∧ length (filter (λ job, job.1 = id pos) queue)
    = (if decide (persisted file (id pos)) then 0 else 1)%nat.
Proof.
  intros Hnd Hpos queue.
  assert (Hin : id pos ∈ queue.*1 ↔ ¬ persisted file (id pos)).
  { unfold queue. rewrite fill_queue_ids, wanted_iff_not_persisted.
    split; [tauto|]. intros ?. split; [|done].
    by apply list_elem_of_fmap_2. }
  split; [done|].
  destruct (decide (persisted file (id pos))) as [Hp|Hp].
  - rewrite filter_absent; [done|]. rewrite Hin. tauto.
  - apply fill_queue_once; [done|]. by apply Hin.
Qed.

Lemma queue_holds_each_unpersisted_id_once_witness :
  let done1 := {| fen := "bnrqkbnr/pppppppp/8/8/8/8/PPPPPPPP/BNRQKBNR w KQkq - 0 1";
                  jr_depth := 0; jr_pvs := [];
                  analyzedAt := "2025-01-05T10:00:00" |} in
  let file := Some [("1", done1)] in
  let pos n := {| id := KInt n; pos_fen := "fen " +:+ PyStr.of_int n |} in
  let positions := [pos 1; pos 2; pos 3] in
  fill_queue (load_results file) positions
  = [(KInt 2, "fen 2"); (KInt 3, "fen 3")]
  ∧ (id (pos 2) ∈ (fill_queue (load_results file) positions).*1
     ↔ ¬ persisted file (id (pos 2)))
  ∧ length (filter (λ job, job.1 = id (pos 2))
              (fill_queue (load_results file) positions))
    = (if decide (persisted file (id (pos 2))) then 0%nat else 1%nat).
Proof.
  intros done1 file pos positions. split; [reflexivity|].
  apply (queue_holds_each_unpersisted_id_once file positions (pos 2)).
  - by vm_compute; repeat constructor;
      rewrite ?elem_of_cons, ?elem_of_nil; intuition congruence.
  - apply list_elem_of_further, list_elem_of_here.
Defined.

(** ** The worker *)

Lemma evolves_trans d1 d2 d3 : evolves d1 d2 → evolves d2 d3 → evolves d1 d3.
Proof.
  intros H12 H23. induction H23;
    [done | by apply evolves_record | by apply evolves_reload].
Qed.

(** A worker only ever adds to [results]. *)
Lemma worker_loop_evolves fuel p task_queue sh :
  evolves (results sh) (results (worker_loop fuel p task_queue sh).2).
Proof.
  revert p sh. induction task_queue as [|[pos_id fen] rest IH]; intros p sh.
  - simpl. destruct (quit p); apply evolves_refl.
  - simpl. destruct (analyze fuel fen p) as [result p'| |];
      [|apply evolves_refl..].
    eapply evolves_trans; [|apply IH].
    simpl. apply evolves_record, evolves_refl.
Qed.

(** A search in which no line parsed returns no variants at depth 0. *)
Lemma analyze_without_parsed_lines fuel fen p pre rest :
  accepts 3 p →
  until_bestmove (stdout p) = Some (pre, rest) →
  (length pre < fuel)%nat →
  parsed_lines pre = [] →
  analyze fuel fen p
  = Ret {| a_pvs := []; a_depth := 0 |}
      (read_to rest (wrote (go_commands fen) p)).
Proof.
  intros Ha Hcut Hfuel Hnone.
  rewrite (analyze_returns fuel fen p pre rest) by done. by rewrite Hnone.
Qed.

(** C10.  When the terminal line comes before any line has parsed,
    [analyze] returns an empty list of variants and depth 0, the worker
    stores that under the id of the job and goes on, and from then on,
    whatever is recorded later and however often the results are saved
    and loaded back, the id is never queued again. *)
Theorem empty_result_is_recorded_and_never_retried
    fuel p pos_id fen task_queue sh pre rest :
  accepts 3 p →
  until_bestmove (stdout p) = Some (pre, rest) →
  (length pre < fuel)%nat →
  parsed_lines pre = [] →
  let empty := {| a_pvs := []; a_depth := 0 |} in
  let p1 := read_to rest (wrote (go_commands fen) p) in
  let sh1 := record_result pos_id fen empty sh in
  analyze fuel fen p = Ret empty p1
  ∧ worker_loop fuel p ((pos_id, fen) :: task_queue) sh
    = worker_loop fuel p1 task_queue sh1
  ∧ dict_get pos_id (results sh1)
    = Some {| fen := fen; jr_depth := 0; jr_pvs := [];
              analyzedAt := hd EmptyString (clock sh) |}
  ∧ evolves (results sh1)
      (results (worker_loop fuel p ((pos_id, fen) :: task_queue) sh).2)
  ∧ ∀ d', evolves (results sh1) d' →
      ∀ positions, pos_id ∉ (fill_queue d' positions).*1.
Proof.
  intros Ha Hcut Hfuel Hnone empty p1 sh1.
  assert (Hrun : analyze fuel fen p = Ret empty p1)
    by by eapply analyze_without_parsed_lines.
  assert (Hstep : worker_loop fuel p ((pos_id, fen) :: task_queue) sh
                  = worker_loop fuel p1 task_queue sh1)
    by by simpl; rewrite Hrun.
  split; [done|]. split; [done|].
  split; [apply dict_get_set|].
  split; [rewrite Hstep; apply worker_loop_evolves|].
  intros d' Hev positions. apply known_not_queued.
  eapply known_evolves; [exact Hev|].
  left. apply dict_in_elem, dict_set_keys. by left.
Qed.

Lemma empty_result_is_recorded_and_never_retried_witness :
  let p := {| pipe := None;
              stdout := ["info string NNUE evaluation enabled";
                         "bestmove (none)"];
              sent := handshake_commands |} in
  let fen := "bnrqkbnr/pppppppp/8/8/8/8/PPPPPPPP/BNRQKBNR w KQkq - 0 1" in
  let sh := {| results := []; progress_done := 0;
               progress_last := EmptyString;
               clock := ["2025-01-05T10:00:00"] |} in
  let empty := {| a_pvs := []; a_depth := 0 |} in
  let p1 := read_to [] (wrote (go_commands fen) p) in
  let sh1 := record_result (KInt 7) fen empty sh in
  analyze 4 fen p = Ret empty p1
  ∧ worker_loop 4 p [(KInt 7, fen)] sh = worker_loop 4 p1 [] sh1
  ∧ dict_get (KInt 7) (results sh1)
    = Some {| fen := fen; jr_depth := 0; jr_pvs := [];
              analyzedAt := hd EmptyString (clock sh) |}
  ∧ evolves (results sh1) (results (worker_loop 4 p [(KInt 7, fen)] sh).2)
  ∧ ∀ d', evolves (results sh1) d' →
      ∀ positions, KInt 7 ∉ (fill_queue d' positions).*1.
Proof.
  intros p fen sh empty p1 sh1.
  apply (empty_result_is_recorded_and_never_retried
           4 p (KInt 7) fen [] sh ["info string NNUE evaluation enabled"] []).
  - exact I.
  - reflexivity.
  - simpl. lia.
  - reflexivity.
Defined.

(** C4, as the code has it.  A job that fails is not caught: when the
    pipe breaks under the commands of a search the exception ends the
    worker thread, and when the output ends before a terminal line the
    worker reads on for ever; in both cases nothing is stored for the
    job and the worker takes no further job from the queue. *)
Theorem failed_job_stops_the_worker fuel p pos_id fen task_queue sh :
  job_fails p →
  worker_loop fuel p ((pos_id, fen) :: task_queue) sh
  = (if decide (accepts 3 p) then Hung else Died BrokenPipeError,
     task_queue, sh).
Proof.
  intros Hfail. simpl. destruct (decide (accepts 3 p)) as [Ha|Ha].
  - destruct Hfail as [?|Hend]; [done|].
    by rewrite analyze_run, Hend.
  - destruct (analyze_broken fuel fen p Ha) as [p' ->]. done.
Qed.

Lemma failed_job_stops_the_worker_witness :
  let p := {| pipe := Some 1%nat; stdout := ["bestmove e2e4"];
              sent := handshake_commands |} in
  let sh := {| results := []; progress_done := 0;
               progress_last := EmptyString; clock := [] |} in
  job_fails p
  ∧ worker_loop 9 p [(KInt 1, "fen 1"); (KInt 2, "fen 2")] sh
    = (Died BrokenPipeError, [(KInt 2, "fen 2")], sh).
Proof.
  intros p sh.
  assert (H : job_fails p) by (left; vm_compute; lia).
  split; [exact H|].
  exact (failed_job_stops_the_worker 9 p (KInt 1) "fen 1"
           [(KInt 2, "fen 2")] sh H).
Defined.

(** C4 fails as the specification states it: an engine whose pipe breaks
    once the handshake is done has answers ready for two jobs, yet the
    worker dies on the first and leaves the second in the queue. *)
Lemma worker_dies_on_the_first_failure :
  let p := {| pipe := Some 5%nat;
              stdout := ["uciok"; "readyok"; "bestmove e2e4"; "bestmove d2d4"];
              sent := [] |} in
  let sh := {| results := []; progress_done := 0;
               progress_last := EmptyString; clock := [] |} in
  worker_thread 9 p [(KInt 1, "fen 1"); (KInt 2, "fen 2")] sh
  = (Died BrokenPipeError, [(KInt 2, "fen 2")], sh).
Proof. reflexivity. Qed.

(** ** Saving *)

Lemma append_cons a (s t : string) : String a s +:+ t = String a (s +:+ t).
Proof. reflexivity. Qed.

Lemma append_empty_r (s : string) : s +:+ EmptyString = s.
Proof. induction s as [|a s IH]; [done|]. by rewrite append_cons, IH. Qed.

Lemma append_assoc (s t u : string) : (s +:+ t) +:+ u = s +:+ (t +:+ u).
Proof. induction s as [|a s IH]; [done|]. by rewrite !append_cons, IH. Qed.

Lemma prefix_append (a b : string) : String.prefix a (a +:+ b) = true.
Proof.
  induction a as [|c a IH]; [by destruct b|].
  rewrite append_cons. simpl. by destruct (ascii_dec c c).
Qed.

Lemma concat_str_app (l1 l2 : list string) :
  concat_str (l1 ++ l2) = concat_str l1 +:+ concat_str l2.
Proof.
  induction l1 as [|c l1 IH]; simpl; [done|].
  by rewrite IH, append_assoc.
Qed.

Lemma str_take_drop (n : nat) (s : string) :
  str_take n s +:+ PyStr.drop n s = s.
Proof.
  revert s. induction n as [|n IH]; intros [|c s]; simpl; try done.
  by rewrite append_cons, IH.
Qed.

(** Through the writes of a save, what is on disk followed by what is
    held is the text written so far. *)
Lemma puts_run (writes : list (string * nat)) (d : disk) (t0 : string) :
  on_disk d = Some t0 →
  ∃ t,
    on_disk (fold_left run_op ((λ w, Put w.1 w.2) <$> writes) d) = Some t
    ∧ t +:+ held (fold_left run_op ((λ w, Put w.1 w.2) <$> writes) d)
      = (t0 +:+ held d) +:+ concat_str writes.*1.
Proof.
  revert d t0. induction writes as [|[c n] ws IH]; intros d t0 Hd.
  - exists t0. simpl. by rewrite append_empty_r.
  - destruct (IH (run_op d (Put c n))
                (t0 +:+ str_take n (held d +:+ c)))
      as (t & Ht & Heq).
    { simpl. by rewrite Hd. }
    rewrite fmap_cons. cbn [fold_left fst snd].
    exists t. split; [exact Ht|]. rewrite Heq.
    cbn [run_op held fmap list_fmap fst concat_str fold_right].
    rewrite (append_assoc t0), str_take_drop. by rewrite !append_assoc.
Qed.

(** A save that got through its first [S j] steps, on whatever was
    there before. *)
Lemma save_run (writes : list (string * nat)) (d : disk) (j : nat) :
  ∃ t b,
    on_disk (fold_left run_op (take (S j) (save writes)) d) = Some t
    ∧ t +:+ b = concat_str (take j writes.*1)
    ∧ ((length writes < j)%nat → t = concat_str writes.*1).
Proof.
  unfold save. simpl.
  set (d0 := {| on_disk := Some EmptyString; held := EmptyString |}).
  destruct (decide (j ≤ length writes)%nat) as [Hj|Hj].
  - rewrite take_app_le by (rewrite length_fmap; lia).
    rewrite <- fmap_take.
    destruct (puts_run (take j writes) d0 EmptyString eq_refl)
      as (t & Ht & Heq).
    exists t, (held (fold_left run_op
                       ((λ w, Put w.1 w.2) <$> take j writes) d0)).
    split; [done|]. split; [|lia].
    by rewrite Heq, fmap_take.
  - rewrite take_ge by (rewrite length_app, length_fmap; simpl; lia).
    rewrite fold_left_app. simpl.
    destruct (puts_run writes d0 EmptyString eq_refl) as (t & Ht & Heq).
    rewrite Ht. simpl. exists (concat_str writes.*1), EmptyString.
    split; [by rewrite Heq|].
    split; [|done].
    rewrite append_empty_r, take_ge; [done|]. rewrite length_fmap. lia.
Qed.

(** C1, as the code has it.  A save opens the output file in place for
    writing, which empties it, writes the new text piece by piece
    through a buffered file object and closes it; there is no temporary
    file and no replacement.  A process that stops before the file is
    opened leaves the old text; one that stops right after the open
    leaves an empty file; one that stops later leaves a prefix, possibly
    empty, of the pieces written so far; and only when the file has been
    closed does it hold the whole of the new text. *)
Theorem save_leaves_a_prefix_of_the_new_text
    (old : output_file) (writes : list (string * nat)) (k : nat) :
  crash_after 0 (save writes) old = old
  ∧ crash_after 1 (save writes) old = Some EmptyString
  ∧ (∃ t, crash_after (S k) (save writes) old = Some t
       ∧ String.prefix t (concat_str (take k writes.*1)) = true
       ∧ String.prefix t (concat_str writes.*1) = true)
  ∧ ((length writes + 2 ≤ k)%nat →
     crash_after k (save writes) old = Some (concat_str writes.*1)).
Proof.
  split; [done|]. split; [done|]. split.
  - unfold crash_after.
    destruct (save_run writes {| on_disk := old; held := EmptyString |} k)
      as (t & b & Ht & Heq & _).
    exists t. split; [done|]. split.
    + rewrite <- Heq. apply prefix_append.
    + rewrite <- (take_drop k writes.*1), concat_str_app, <- Heq.
      rewrite append_assoc. apply prefix_append.
  - intros Hk. destruct k as [|j]; [lia|]. unfold crash_after.
    destruct (save_run writes {| on_disk := old; held := EmptyString |} j)
      as (t & b & Ht & _ & Hall).
    rewrite Ht, Hall by lia. done.
Qed.

Lemma save_leaves_a_prefix_of_the_new_text_witness :
  let writes := [("{", 0%nat); (nl "  ", 0%nat); (quoted "1", 0%nat);
                 (": ", 0%nat); ("{}", 0%nat); (nl EmptyString, 0%nat);
                 ("}", 0%nat)] in
  crash_after 9 (save writes) (Some "{}") = Some (concat_str writes.*1).
Proof.
  intros writes.
  apply (save_leaves_a_prefix_of_the_new_text (Some "{}") writes 9).
  simpl. lia.
Defined.

(** C1 fails as the specification states it: the file held [{}], and a
    save of one result that stops right after the open, or after two of
    its writes while the text is still in the buffer, leaves an empty
    file, which is neither the old text nor the new one. *)
Lemma interrupted_save_leaves_an_empty_file :
  let old := Some "{}" in
  let pieces :=
    ["{"; nl "  "; quoted "1"; ": "; "{"; nl "    ";
     quoted "fen"; ": "; quoted "8/8/8/8/8/8/8/8 w - - 0 1"; "," +:+ nl "    ";
     quoted "depth"; ": "; "0"; "," +:+ nl "    ";
     quoted "pvs"; ": "; "[]"; "," +:+ nl "    ";
     quoted "analyzedAt"; ": "; quoted "2025-01-05T10:00:00"; nl "  ";
     "}"; nl EmptyString; "}"] in
  let writes := (λ piece, (piece, 0%nat)) <$> pieces in
  crash_after 1 (save writes) old = Some EmptyString
  ∧ crash_after 3 (save writes) old = Some EmptyString
  ∧ Some EmptyString ≠ old
  ∧ Some EmptyString ≠ Some (concat_str pieces).
Proof. by vm_compute. Qed.

(** * Further properties of the code *)

(** ** _extract *)

Lemma index_split key parts i :
  PyStr.index key parts = Some i
  ↔ ∃ pre post, parts = pre ++ key :: post ∧ (key ∉ pre) ∧ length pre = i.
Proof.
  revert i. induction parts as [|w ws IH]; intros i; simpl.
  - split; [done|]. intros (pre & post & H & _). by destruct pre.
  - destruct (String.eqb_spec w key) as [->|Hne].
    + split.
      * intros [= <-]. exists [], ws. split; [done|]. split; [|done].
        apply not_elem_of_nil.
      * intros (pre & post & H & Hpre & <-). destruct pre as [|x pre]; [done|].
        injection H as <- _. exfalso. apply Hpre, list_elem_of_here.
    + destruct (PyStr.index key ws) as [j|]; simpl.
      * split.
        -- intros [= <-]. destruct (proj1 (IH j) eq_refl) as (pre & post & -> & ? & <-).
           exists (w :: pre), post. split; [done|]. split; [|done].
           rewrite not_elem_of_cons. split; [congruence|done].
        -- intros (pre & post & H & Hpre & <-).
           destruct pre as [|x pre]; [by injection H|].
           injection H as <- ->. f_equal. simpl. f_equal.
           assert (Some j = Some (length pre)) as [= ->]; [|done].
           apply IH. exists pre, post. split; [done|]. split; [|done].
           intros ?. apply Hpre. by apply list_elem_of_further.
      * split; [done|]. intros (pre & post & H & Hpre & <-).
        destruct pre as [|x pre]; [by injection H|].
        injection H as <- ->.
        assert (None = Some (length pre)); [|done].
        apply IH. exists pre, post. split; [done|]. split; [|done].
        intros ?. apply Hpre. by apply list_elem_of_further.
Qed.

Lemma extract_inv line key v :
  _extract line key = Some v →
  ∃ pre post, PyStr.split line = pre ++ key :: v :: post ∧ key ∉ pre.
Proof.
  unfold _extract.
  destruct (PyStr.index key (PyStr.split line)) as [i|] eqn:E; [|done].
  simpl. apply index_split in E as (pre & post & -> & Hpre & <-).
  rewrite lookup_app_r by lia.
  replace (length pre + 1 - length pre)%nat with 1%nat by lia.
  destruct post as [|v' post]; [done|]. intros [= ->]. by exists pre, post.
Qed.

(** X1.  [_extract] returns [v] exactly when the first word of the line
    equal to the key is followed by the word [v]; a key that is absent
    or is the last word yields [None]. *)
Theorem extract_is_the_word_after_the_first_key line key v :
  _extract line key = Some v
  ↔ ∃ pre post, PyStr.split line = pre ++ key :: v :: post ∧ key ∉ pre.
Proof.
  split; [apply extract_inv|].
  intros (pre & post & Hs & Hpre). unfold _extract.
  assert (E : PyStr.index key (PyStr.split line) = Some (length pre)).
  { apply index_split. by exists pre, (v :: post). }
  rewrite E, Hs. simpl. rewrite lookup_app_r by lia.
  by replace (length pre + 1 - length pre)%nat with 1%nat by lia.
Qed.

Lemma rev_app_nonempty a b :
  b ≠ EmptyString → String.rev_app a b ≠ EmptyString.
Proof. revert b. induction a as [|c a IH]; intros b Hb; [done|]. by apply IH. Qed.

Lemma split_go_nonempty s cur :
  Forall (λ t, t ≠ EmptyString) (PyStr.split_go cur s).
Proof.
  assert (Hflush : ∀ cur, Forall (λ t, t ≠ EmptyString) (PyStr.flush cur)).
  { intros [|c cur']; [constructor|]. repeat constructor.
    unfold String.rev. simpl. by apply rev_app_nonempty. }
  revert cur. induction s as [|c s IH]; intros cur; simpl; [done|].
  destruct (PyStr.is_space c); [|done]. apply Forall_app. by split.
Qed.

(** X2.  What [_extract] returns is a word: it is not empty and holds no
    whitespace, and neither does a key it finds; so [x or "1"] falls
    back on its default exactly when the key was not found. *)
Theorem extract_returns_a_word line key v :
  _extract line key = Some v →
  v ≠ EmptyString
  ∧ PyStr.has_space v = false
  ∧ PyStr.has_space key = false
  ∧ ∀ d, or_default (_extract line key) d = v.
Proof.
  intros H.
  destruct (extract_inv line key v H) as (pre & post & Hs & _).
  pose proof (split_no_space line) as Hsp.
  pose proof (split_go_nonempty line EmptyString) as Hne.
  fold (PyStr.split line) in Hne. rewrite Hs in Hsp, Hne.
  apply Forall_app in Hsp as [_ Hsp]. apply Forall_app in Hne as [_ Hne].
  apply Forall_cons in Hsp as [Hk Hsp]. apply Forall_cons in Hsp as [Hv _].
  apply Forall_cons in Hne as [_ Hne]. apply Forall_cons in Hne as [Hvn _].
  repeat split; try done.
  intros d. rewrite H. by destruct v.
Qed.

Lemma extract_returns_a_word_witness :
  let line := "info depth 12 multipv 2 score cp 35 pv e2e4" in
  _extract line "multipv" = Some "2"
  ∧ "2" ≠ EmptyString
  ∧ PyStr.has_space "2" = false
  ∧ PyStr.has_space "multipv" = false
  ∧ ∀ d, or_default (_extract line "multipv") d = "2".
Proof.
  intros line. split; [reflexivity|].
  exact (extract_returns_a_word line "multipv" "2" eq_refl).
Defined.

(** ** The session, line by line *)

Lemma after_token_split target out n rest :
  after_token target out = Some (n, rest)
  ↔ ∃ pre l, out = pre ++ l :: rest
      ∧ length pre = n
      ∧ PyStr.strip l = target
      ∧ Forall (λ x, PyStr.strip x ≠ target) pre.
Proof.
  revert n. induction out as [|x out IH]; intros n; simpl.
  - split; [done|]. intros (pre & l & H & _). by destruct pre.
  - destruct (String.eqb_spec (PyStr.strip x) target) as [Hx|Hx].
    + split.
      * intros [= <- <-]. exists [], x. by repeat split.
      * intros (pre & l & H & <- & Hl & Hpre).
        destruct pre as [|y pre]; [by injection H as <- <-|].
        injection H as <- _. by apply Forall_cons in Hpre as [? _].
    + destruct (after_token target out) as [[m r]|] eqn:E; simpl.
      * split.
        -- intros [= <- <-].
           destruct (proj1 (IH m) eq_refl) as (pre & l & -> & <- & ? & ?).
           exists (x :: pre), l. repeat split; [done|]. by constructor.
        -- intros (pre & l & H & <- & Hl & Hpre).
           destruct pre as [|y pre]; [injection H as <- _; done|].
           injection H as <- ->. apply Forall_cons in Hpre as [_ Hpre].
           assert (Some (m, r) = Some (length pre, rest)) as [= -> ->]; [|done].
           apply IH. by exists pre, l.
      * split; [done|]. intros (pre & l & H & <- & Hl & Hpre).
        destruct pre as [|y pre]; [injection H as <- _; done|].
        injection H as <- ->. apply Forall_cons in Hpre as [_ Hpre].
        assert (None = Some (length pre, rest)); [|done].
        apply IH. by exists pre, l.
Qed.

Lemma until_bestmove_split out pre rest :
  until_bestmove out = Some (pre, rest)
  ↔ ∃ raw l, out = raw ++ l :: rest
      ∧ pre = PyStr.strip <$> raw
      ∧ PyStr.startswith "bestmove" (PyStr.strip l) = true
      ∧ Forall (λ x, PyStr.startswith "bestmove" (PyStr.strip x) = false) raw.
Proof.
  revert pre. induction out as [|x out IH]; intros pre.
  - simpl. split; [done|]. intros (raw & l & H & _). by destruct raw.
  - cbn [until_bestmove].
    destruct (PyStr.startswith "bestmove" (PyStr.strip x)) eqn:Hx.
    + split.
      * intros [= <- <-]. exists [], x. by repeat split.
      * intros (raw & l & H & -> & Hl & Hraw).
        destruct raw as [|y raw]; [by injection H as <- <-|].
        injection H as <- _. apply Forall_cons in Hraw as [? _]. congruence.
    + destruct (until_bestmove out) as [[q r]|] eqn:E; simpl.
      * split.
        -- intros [= <- <-].
           destruct (proj1 (IH q) eq_refl) as (raw & l & -> & -> & ? & ?).
           exists (x :: raw), l. repeat split; [done|]. by constructor.
        -- intros (raw & l & H & -> & Hl & Hraw).
           destruct raw as [|y raw]; [injection H as <- _; congruence|].
           injection H as <- ->. apply Forall_cons in Hraw as [_ Hraw].
           assert (Some (q, r) = Some (PyStr.strip <$> raw, rest))
             as [= -> ->]; [|done].
           apply IH. by exists raw, l.
      * split; [done|]. intros (raw & l & H & -> & Hl & Hraw).
        destruct raw as [|y raw]; [injection H as <- _; congruence|].
        injection H as <- ->. apply Forall_cons in Hraw as [_ Hraw].
        assert (None = Some (PyStr.strip <$> raw, rest)); [|done].
        apply IH. by exists raw, l.
Qed.

(** X3.  [_wait_for] discards the lines that are not the target and
    returns right after the first line that, stripped, is the target,
    leaving the lines behind it unread. *)
Theorem wait_for_reads_through_the_token fuel target p pre l rest :
  stdout p = pre ++ l :: rest →
  Forall (λ x, PyStr.strip x ≠ target) pre →
  PyStr.strip l = target →
  (length pre < fuel)%nat →
  _wait_for fuel target p = Ret tt (read_to rest p).
Proof.
  revert fuel p. induction pre as [|x pre IH]; intros fuel p Hout Hpre Hl Hfuel.
  - destruct fuel as [|fuel]; [simpl in Hfuel; lia|].
    cbn [_wait_for]. rewrite bind_run. unfold readline. rewrite Hout.
    simpl app. cbv beta iota. rewrite Hl, String.eqb_refl. done.
  - destruct fuel as [|fuel]; [simpl in Hfuel; lia|].
    apply Forall_cons in Hpre as [Hx Hpre].
    cbn [_wait_for]. rewrite bind_run. unfold readline. rewrite Hout.
    simpl app. cbv beta iota.
    destruct (String.eqb_spec (PyStr.strip x) target) as [?|_]; [done|].
    rewrite (IH fuel {| pipe := pipe p; stdout := pre ++ l :: rest;
                        sent := sent p |} eq_refl Hpre Hl)
      by (simpl in Hfuel; lia).
    done.
Qed.

Lemma wait_for_reads_through_the_token_witness :
  let p := {| pipe := None;
              stdout := ["id name Stockfish 16"; "option name Threads type spin";
                         "  uciok "; "readyok"];
              sent := ["uci"] |} in
  _wait_for 3 "uciok" p = Ret tt (read_to ["readyok"] p).
Proof.
  intros p.
  apply (wait_for_reads_through_the_token 3 "uciok" p
           ["id name Stockfish 16"; "option name Threads type spin"]
           "  uciok " ["readyok"]).
  - reflexivity.
  - by repeat constructor.
  - reflexivity.
  - simpl. lia.
Defined.

(** X4.  On an engine that acknowledges, whatever it prints before each
    acknowledgment, [start] returns having written its five commands in
    order and read the output up to the line [readyok]. *)
Theorem start_completes_the_handshake fuel p pre1 l1 pre2 l2 rest :
  accepts 5 p →
  stdout p = pre1 ++ l1 :: pre2 ++ l2 :: rest →
  Forall (λ x, PyStr.strip x ≠ "uciok") pre1 →
  PyStr.strip l1 = "uciok" →
  Forall (λ x, PyStr.strip x ≠ "readyok") pre2 →
  PyStr.strip l2 = "readyok" →
  (length pre1 < fuel)%nat →
  (length pre2 < fuel)%nat →
  start fuel p
  = Ret tt
      (read_to rest
         (wrote ["uci"; "setoption name UCI_Chess960 value true";
                 "setoption name Threads value 4";
                 "setoption name MultiPV value 3"; "isready"] p)).
Proof.
  intros Ha Hout H1 Hl1 H2 Hl2 Hf1 Hf2. rewrite start_run by done.
  assert (E1 : after_token "uciok" (stdout p)
               = Some (length pre1, pre2 ++ l2 :: rest)).
  { apply after_token_split. by exists pre1, l1. }
  assert (E2 : after_token "readyok" (pre2 ++ l2 :: rest)
               = Some (length pre2, rest)).
  { apply after_token_split. by exists pre2, l2. }
  rewrite E1. destruct (Nat.ltb_spec (length pre1) fuel); [|lia].
  rewrite E2. destruct (Nat.ltb_spec (length pre2) fuel); [|lia].
  done.
Qed.

Lemma start_completes_the_handshake_witness :
  let p := {| pipe := Some 5%nat;
              stdout := ["Stockfish 16 by the Stockfish developers";
                         "id name Stockfish 16"; "uciok"; "readyok";
                         "bestmove e2e4"];
              sent := [] |} in
  start 3 p
  = Ret tt {| pipe := Some 0%nat; stdout := ["bestmove e2e4"];
              sent := ["uci"; "setoption name UCI_Chess960 value true";
                       "setoption name Threads value 4";
                       "setoption name MultiPV value 3"; "isready"] |}.
Proof.
  intros p.
  apply (start_completes_the_handshake 3 p
           ["Stockfish 16 by the Stockfish developers"; "id name Stockfish 16"]
           "uciok" [] "readyok" ["bestmove e2e4"]).
  - unfold accepts. simpl. lia.
  - reflexivity.
  - by repeat constructor.
  - reflexivity.
  - constructor.
  - reflexivity.
  - simpl. lia.
  - simpl. lia.
Defined.

(** X5.  When the pipe breaks during the handshake, after [k] of the
    five commands, [start] does not return: it raises [BrokenPipeError]
    with exactly those [k] commands written, unless it is still waiting
    for [uciok]. *)
Theorem start_on_a_breaking_pipe fuel p k :
  pipe p = Some k →
  (k < 5)%nat →
  start fuel p = OutOfFuel
  ∨ ∃ p', start fuel p = Raise BrokenPipeError p'
      ∧ pipe p' = Some 0%nat
      ∧ sent p' = sent p ++ take k handshake_commands.
Proof.
  destruct p as [pp out log]. simpl. intros -> Hk.
  unfold start. rewrite bind_run.
  destruct k as [|k].
  { right. eexists. split; [reflexivity|]. simpl. by rewrite app_nil_r. }
  cbn [_send pipe stdout sent]. cbv beta iota.
  rewrite bind_run, wait_for_run by done. cbn [stdout].
  destruct (after_token "uciok" out) as [[n r1]|]; [|by left].
  destruct (n <? fuel)%nat; [|by left].
  right. unfold read_to. cbn [pipe stdout sent]. cbv beta iota.
  do 4 (destruct k as [|k];
        [eexists; split; [reflexivity|]; simpl; by rewrite <- ?app_assoc|]).
  lia.
Qed.

Lemma start_on_a_breaking_pipe_witness :
  let p := {| pipe := Some 2%nat; stdout := ["uciok"; "readyok"];
              sent := [] |} in
  start 4 p = OutOfFuel
  ∨ ∃ p', start 4 p = Raise BrokenPipeError p'
      ∧ pipe p' = Some 0%nat
      ∧ sent p' = sent p ++ take 2 handshake_commands.
Proof.
  intros p. apply (start_on_a_breaking_pipe 4 p 2); [reflexivity|lia].
Defined.

(** X6.  When the pipe breaks under the commands of a search, after [k]
    of the three, [analyze] raises [BrokenPipeError] with exactly those
    [k] commands written and not a line of the output read. *)
Theorem analyze_on_a_breaking_pipe fuel fen p k :
  pipe p = Some k →
  (k < 3)%nat →
  analyze fuel fen p
  = Raise BrokenPipeError
      {| pipe := Some 0%nat; stdout := stdout p;
         sent := sent p ++ take k (go_commands fen) |}.
Proof.
  destruct p as [pp out log]. simpl. intros -> Hk.
  unfold analyze.
  do 3 (destruct k as [|k];
        [cbv [mbind session_bind _send pipe stdout sent];
         simpl; by rewrite <- ?app_assoc, ?app_nil_r|]).
  lia.
Qed.

Lemma analyze_on_a_breaking_pipe_witness :
  let p := {| pipe := Some 1%nat; stdout := ["bestmove e2e4"];
              sent := handshake_commands |} in
  analyze 4 "8/8/8/8/8/8/8/8 w - - 0 1" p
  = Raise BrokenPipeError
      {| pipe := Some 0%nat; stdout := ["bestmove e2e4"];
         sent := handshake_commands ++ ["ucinewgame"] |}.
Proof.
  intros p.
  apply (analyze_on_a_breaking_pipe 4 "8/8/8/8/8/8/8/8 w - - 0 1" p 1);
    [reflexivity|lia].
Defined.

(** X7.  Whatever the engine printed, a call of [analyze] that returns
    reports no variant and depth 0; it has written its three commands
    and read the output up to the first line that starts with
    [bestmove], and no further. *)
Theorem analyze_only_returns_the_empty_result fuel fen p r p' :
  analyze fuel fen p = Ret r p' →
  r = {| a_pvs := []; a_depth := 0 |}
  ∧ sent p' = sent p ++ ["ucinewgame"; "position fen " +:+ fen;
                         "go movetime 20000"]
  ∧ ∃ raw l,
      stdout p = raw ++ l :: stdout p'
      ∧ PyStr.startswith "bestmove" (PyStr.strip l) = true
      ∧ Forall (λ x, PyStr.startswith "bestmove" (PyStr.strip x) = false) raw.
Proof.
  intros H.
  apply analyze_ret_inv in H as (pre & rest & Hcut & _ & _ & -> & ->).
  rewrite parsed_lines_nil. split; [done|]. split; [done|].
  apply until_bestmove_split in Hcut as (raw & l & Hout & _ & Hl & Hraw).
  by exists raw, l.
Qed.

Lemma analyze_only_returns_the_empty_result_witness :
  let p := {| pipe := None;
              stdout := ["info depth 30 seldepth 41 multipv 1 score cp 27 nodes 9 pv e2e4 e7e5";
                         "info depth 30 seldepth 38 multipv 2 score mate 5 nodes 9 pv d2d4";
                         "bestmove e2e4 ponder e7e5"; "readyok"];
              sent := [] |} in
  let fen := "8/8/8/8/8/8/8/8 w - - 0 1" in
  let r := {| a_pvs := []; a_depth := 0 |} in
  let p' := read_to ["readyok"] (wrote (go_commands fen) p) in
  analyze 5 fen p = Ret r p'
  ∧ r = {| a_pvs := []; a_depth := 0 |}
  ∧ sent p' = sent p ++ ["ucinewgame"; "position fen " +:+ fen;
                         "go movetime 20000"]
  ∧ ∃ raw l,
      stdout p = raw ++ l :: stdout p'
      ∧ PyStr.startswith "bestmove" (PyStr.strip l) = true
      ∧ Forall (λ x, PyStr.startswith "bestmove" (PyStr.strip x) = false) raw.
Proof.
  intros p fen r p'.
  assert (H : analyze 5 fen p = Ret r p') by reflexivity.
  split; [exact H|].
  exact (analyze_only_returns_the_empty_result 5 fen p r p' H).
Defined.

(** ** The state of the search loop *)

(** X8.  Through any sequence of parsed lines the loop state of
    [analyze] stays coherent: every retained line is one of the lines
    seen and sits under its own rank, and the tracked depth is never
    negative and never below the depth of a retained line. *)
Theorem retained_state_is_coherent (ps : list parsed) :
  let st := fold_left retain ps (∅, 0) in
  0 ≤ st.2
  ∧ ∀ r l, st.1 !! r = Some l → pv_num l = r ∧ l ∈ ps ∧ depth l ≤ st.2.
Proof.
  induction ps as [|x ps IH] using rev_ind; [by split|].
  rewrite fold_left_app. simpl.
  set (st := fold_left retain ps (∅, 0)) in *. simpl in IH.
  destruct IH as [Hfd Hlines]. rewrite retain_depth. split; [lia|].
  intros r l Hl. destruct (decide (pv_num x = r)) as [<-|Hne].
  - rewrite retain_same in Hl.
    assert (Hx : pv_num x = pv_num x ∧ x ∈ ps ++ [x]
                 ∧ depth x ≤ Z.max st.2 (depth x)).
    { split; [done|]. split; [|lia].
      apply elem_of_app. right. apply list_elem_of_here. }
    destruct (st.1 !! pv_num x) as [old|] eqn:E.
    + destruct (depth old <? depth x); injection Hl as <-; [done|].
      destruct (Hlines _ _ E) as (? & ? & ?). split; [done|].
      split; [|lia]. apply elem_of_app. by left.
    + by injection Hl as <-.
  - rewrite retain_other in Hl by done.
    destruct (Hlines _ _ Hl) as (? & ? & ?). split; [done|].
    split; [|lia]. apply elem_of_app. by left.
Qed.

(** X9.  A line whose rank lies outside 1 to [MULTI_PV] can be
    retained, but it is never reported: the list built after the loop
    does not depend on it. *)
Theorem emit_ignores_ranks_out_of_range (lines : gmap Z parsed) k l :
  ¬ (1 ≤ k ≤ MULTI_PV) →
  emit (<[k := l]> lines) = emit lines.
Proof.
  unfold MULTI_PV. intros Hk. unfold emit.
  change (range 1 (MULTI_PV + 1)) with [1; 2; 3]. simpl.
  by rewrite !lookup_insert_ne by lia.
Qed.

Lemma emit_ignores_ranks_out_of_range_witness :
  let l := {| depth := 18; pv_num := 4; moves := "c2c4";
              eval := EvalFloat (12 # 100); mate := None |} in
  emit (retain (∅, 0) l).1 = emit ∅.
Proof.
  intros l.
  apply (emit_ignores_ranks_out_of_range ∅ 4 l). unfold MULTI_PV. lia.
Defined.

(** ** A worker and the results *)

Lemma dict_get_set_ne {V} (k k' : pykey) (v : V) (d : dict V) :
  k ≠ k' → dict_get k' (dict_set k v d) = dict_get k' d.
Proof.
  intros Hne. induction d as [|[k0 v0] d IH]; simpl.
  - by rewrite decide_False.
  - destruct (decide (k0 = k)) as [->|Hk]; simpl.
    + by rewrite !decide_False.
    + destruct (decide (k0 = k')); [done|apply IH].
Qed.

Lemma analyze_ret_empty fuel fen p r p' :
  analyze fuel fen p = Ret r p' → r = {| a_pvs := []; a_depth := 0 |}.
Proof.
  intros H. apply analyze_ret_inv in H as (pre & rest & _ & _ & _ & -> & _).
  by rewrite parsed_lines_nil.
Qed.

(** What a worker does to one entry of [results]: nothing, or, for an id
    of its queue, it stores an empty result. *)
Lemma worker_loop_entry fuel p task_queue sh k :
  let sh' := (worker_loop fuel p task_queue sh).2 in
  dict_get k (results sh') = dict_get k (results sh)
  ∨ (k ∈ task_queue.*1
     ∧ ∃ v, dict_get k (results sh') = Some v ∧ empty_result v).
Proof.
  revert p sh. induction task_queue as [|[i f] rest IH]; intros p sh; simpl.
  - left. by destruct (quit p).
  - destruct (analyze fuel f p) as [r p1| |] eqn:E; [|by left..].
    apply analyze_ret_empty in E as ->.
    destruct (IH p1 (record_result i f {| a_pvs := []; a_depth := 0 |} sh))
      as [Hsame|(Hin & v & Hv & Hempty)].
    + simpl in Hsame. destruct (decide (i = k)) as [->|Hne].
      * right. split; [apply list_elem_of_here|].
        rewrite dict_get_set in Hsame. eexists. split; [exact Hsame|].
        by split.
      * left. by rewrite dict_get_set_ne in Hsame.
    + right. split; [by apply list_elem_of_further|]. by exists v.
Qed.

Lemma worker_loop_finishes fuel p task_queue sh :
  accepts (3 * length task_queue + 1) p →
  answers fuel (length task_queue) (stdout p) = true →
  ∃ sh',
    worker_loop fuel p task_queue sh = (Finished, [], sh')
    ∧ progress_done sh' = progress_done sh + Z.of_nat (length task_queue)
    ∧ ∀ i, i ∈ task_queue.*1 →
        ∃ v, dict_get i (results sh') = Some v ∧ empty_result v.
Proof.
  revert p sh. induction task_queue as [|[i f] rest IH]; intros p sh Ha Hans.
  - exists sh. simpl. unfold quit. rewrite send_ok by done.
    split; [done|]. split; [lia|]. intros i Hi. by apply elem_of_nil in Hi.
  - simpl in Hans.
    destruct (until_bestmove (stdout p)) as [[pre out]|] eqn:Hcut; [|done].
    apply andb_true_iff in Hans as [Hfuel Hans].
    apply Nat.ltb_lt in Hfuel.
    assert (Hrun := analyze_returns fuel f p pre out).
    rewrite parsed_lines_nil in Hrun.
    set (p1 := read_to out (wrote (go_commands f) p)) in *.
    set (sh1 := record_result i f (analysis_of (∅, 0)) sh).
    destruct (IH p1 sh1) as (sh' & Hloop & Hdone & Hall).
    { apply (accepts_wrote _ (go_commands f) p).
      eapply accepts_le; [|exact Ha]. simpl. lia. }
    { exact Hans. }
    exists sh'. simpl. rewrite Hrun.
    2:{ eapply accepts_le; [|exact Ha]. simpl. lia. }
    2:{ done. }
    2:{ done. }
    split; [exact Hloop|]. split.
    { rewrite Hdone. simpl. lia. }
    intros k Hk. apply elem_of_cons in Hk as [->|Hk]; [|by apply Hall].
    pose proof (worker_loop_entry fuel p1 rest sh1 i) as Hentry.
    simpl in Hentry. rewrite Hloop in Hentry. simpl in Hentry.
    destruct Hentry as [Hsame|(_ & v & Hv & He)]; [|by exists v].
    rewrite dict_get_set in Hsame. eexists. split; [exact Hsame|]. by split.
Qed.

(** X10.  A worker whose engine answers every search of its queue takes
    the jobs one after the other and finishes, its [quit] written, with
    the queue empty; [done] has grown by the number of jobs, and every job's
    id holds a result (an empty one, as no line parses). *)
Theorem worker_finishes_its_queue fuel p task_queue sh :
  accepts (3 * length task_queue + 1) p →
  answers fuel (length task_queue) (stdout p) = true →
  ∃ sh',
    worker_loop fuel p task_queue sh = (Finished, [], sh')
    ∧ progress_done sh' = progress_done sh + Z.of_nat (length task_queue)
    ∧ ∀ i, i ∈ task_queue.*1 →
        ∃ v, dict_get i (results sh') = Some v ∧ empty_result v.
Proof. apply worker_loop_finishes. Qed.

Lemma worker_finishes_its_queue_witness :
  let p := {| pipe := Some 7%nat;
              stdout := ["info depth 20 multipv 1 score cp 31 pv e2e4";
                         "bestmove e2e4"; "bestmove d2d4"];
              sent := handshake_commands |} in
  let sh := {| results := []; progress_done := 0;
               progress_last := EmptyString;
               clock := ["2025-01-05T10:00:00"; "2025-01-05T10:00:20"] |} in
  let task_queue := [(KInt 0, "fen 0"); (KInt 1, "fen 1")] in
  ∃ sh',
    worker_loop 3 p task_queue sh = (Finished, [], sh')
    ∧ progress_done sh' = progress_done sh + Z.of_nat (length task_queue)
    ∧ ∀ i, i ∈ task_queue.*1 →
        ∃ v, dict_get i (results sh') = Some v ∧ empty_result v.
Proof.
  intros p sh task_queue.
  apply (worker_finishes_its_queue 3 p task_queue sh).
  - unfold accepts. simpl. lia.
  - reflexivity.
Defined.

(** X11.  A worker never removes a key of [results], and it leaves the
    entry of every id that is not in its queue exactly as it was. *)
Theorem worker_touches_only_its_jobs fuel p task_queue sh k :
  let sh' := (worker_loop fuel p task_queue sh).2 in
  (dict_in k (results sh) = true → dict_in k (results sh') = true)
  ∧ (k ∉ task_queue.*1 →
     dict_get k (results sh') = dict_get k (results sh)).
Proof.
  intros sh'. pose proof (worker_loop_entry fuel p task_queue sh k) as H.
  fold sh' in H. split.
  - unfold dict_in. rewrite !bool_decide_eq_true.
    destruct H as [->|(_ & v & -> & _)]; eauto.
  - intros Hk. by destruct H as [?|[? _]].
Qed.

Lemma worker_touches_only_its_jobs_witness :
  let old := {| fen := "fen 5"; jr_depth := 0; jr_pvs := [];
                analyzedAt := "2025-01-04T09:00:00" |} in
  let p := {| pipe := None; stdout := ["bestmove e2e4"];
              sent := handshake_commands |} in
  let sh := {| results := [(KStr "5", old)]; progress_done := 0;
               progress_last := EmptyString; clock := [] |} in
  dict_get (KStr "5") (results (worker_loop 3 p [(KInt 6, "fen 6")] sh).2)
  = Some old.
Proof.
  intros old p sh.
  apply (worker_touches_only_its_jobs 3 p [(KInt 6, "fen 6")] sh (KStr "5")).
  simpl. rewrite not_elem_of_cons. split; [discriminate|apply not_elem_of_nil].
Defined.

(** X12.  However a worker ends, it has taken its jobs from the front of
    the queue in order: the jobs it completed, then at most the one it
    failed on, and the rest is left in the queue; [done] has grown by
    the number of completed jobs and one clock reading was used for
    each. *)
Theorem worker_accounts_for_its_jobs fuel p task_queue sh how rest sh' :
  worker_loop fuel p task_queue sh = (how, rest, sh') →
  ∃ completed,
    progress_done sh' = progress_done sh + Z.of_nat (length completed)
    ∧ clock sh' = drop (length completed) (clock sh)
    ∧ ((rest = [] ∧ task_queue = completed)
       ∨ (how ≠ Finished ∧ ∃ job, task_queue = completed ++ job :: rest)).
Proof.
  revert p sh. induction task_queue as [|[i f] q IH]; intros p sh; simpl.
  - intros H. exists [].
    assert (rest = [] ∧ sh' = sh) as [-> ->]
      by (by destruct (quit p); injection H as _ <- <-).
    simpl. split; [lia|]. split; [done|by left].
  - destruct (analyze fuel f p) as [r p1| |] eqn:E.
    + intros H. apply IH in H as (completed & Hdone & Hclock & Hq).
      exists ((i, f) :: completed). simpl in *. split; [lia|].
      split.
      { rewrite Hclock. destruct (clock sh); simpl; [by rewrite drop_nil|done]. }
      destruct Hq as [[-> ->]|[? [job ->]]]; [by left|right].
      split; [done|]. by exists job.
    + intros [= <- <- <-]. exists []. simpl. split; [lia|]. split; [done|].
      right. split; [done|]. by exists (i, f).
    + intros [= <- <- <-]. exists []. simpl. split; [lia|]. split; [done|].
      right. split; [done|]. by exists (i, f).
Qed.

Lemma worker_accounts_for_its_jobs_witness :
  let p := {| pipe := Some 4%nat;
              stdout := ["bestmove e2e4"; "bestmove d2d4"];
              sent := handshake_commands |} in
  let sh := {| results := []; progress_done := 10;
               progress_last := EmptyString;
               clock := ["2025-01-05T10:00:00"; "2025-01-05T10:00:20"] |} in
  let task_queue := [(KInt 0, "fen 0"); (KInt 1, "fen 1"); (KInt 2, "fen 2")] in
  let sh' := (worker_loop 3 p task_queue sh).2 in
  worker_loop 3 p task_queue sh
  = (Died BrokenPipeError, [(KInt 2, "fen 2")], sh')
  ∧ ∃ completed,
      progress_done sh' = progress_done sh + Z.of_nat (length completed)
      ∧ clock sh' = drop (length completed) (clock sh)
      ∧ (([(KInt 2, "fen 2")] = [] ∧ task_queue = completed)
         ∨ (Died BrokenPipeError ≠ Finished
            ∧ ∃ job, task_queue = completed ++ job :: [(KInt 2, "fen 2")])).
Proof.
  intros p sh task_queue sh'.
  assert (H : worker_loop 3 p task_queue sh
              = (Died BrokenPipeError, [(KInt 2, "fen 2")], sh'))
    by reflexivity.
  split; [exact H|].
  exact (worker_accounts_for_its_jobs 3 p task_queue sh _ _ _ H).
Defined.

(** X13.  A worker whose engine never completes the handshake takes no
    job: it waits in [start], and the queue and the shared state stay as
    they were. *)
Theorem worker_without_handshake_takes_no_job fuel p task_queue sh :
  accepts 5 p →
  handshake_acked (stdout p) = false →
  worker_thread fuel p task_queue sh = (Hung, task_queue, sh).
Proof.
  intros Ha Hack. unfold worker_thread. rewrite start_run by done.
  unfold handshake_acked in Hack.
  destruct (after_token "uciok" (stdout p)) as [[n r1]|]; [|done].
  destruct (n <? fuel)%nat; [|done].
  destruct (after_token "readyok" r1) as [[m r2]|]; [|done].
  by apply bool_decide_eq_false in Hack as [].
Qed.

Lemma worker_without_handshake_takes_no_job_witness :
  let p := {| pipe := None; stdout := ["Stockfish 16"; "uciok"];
              sent := [] |} in
  let sh := {| results := []; progress_done := 0;
               progress_last := EmptyString; clock := [] |} in
  worker_thread 9 p [(KInt 0, "fen 0")] sh = (Hung, [(KInt 0, "fen 0")], sh).
Proof.
  intros p sh.
  apply (worker_without_handshake_takes_no_job 9 p [(KInt 0, "fen 0")] sh).
  - exact I.
  - reflexivity.
Defined.

(** ** Startup and resume *)

Lemma known_iff k (d : dict job_result) :
  known k d
  ↔ ¬ (dict_in (KStr (py_str k)) d = false ∧ dict_in k d = false).
Proof.
  unfold known. destruct (dict_in k d), (dict_in (KStr (py_str k)) d);
    intuition congruence.
Qed.

Lemma fill_queue_filter results positions :
  fill_queue results positions
  = (λ pos, (id pos, pos_fen pos))
      <$> filter (λ pos, ¬ known (id pos) results) positions.
Proof.
  induction positions as [|pos rest IH]; [done|]. simpl.
  rewrite filter_cons, IH.
  destruct (decide (¬ known (id pos) results)) as [H|H];
    rewrite known_iff in H;
    destruct (dict_in (KStr (py_str (id pos))) results),
             (dict_in (id pos) results); simpl; try done;
    exfalso; apply H; intuition congruence.
Qed.

(** X14.  The queue holds the positions that [results] does not know, in
    the order of the input and each with its own [fen]; when the output
    file is missing or unreadable that is every position. *)
Theorem queue_keeps_the_input_order results positions :
  fill_queue results positions
  = (λ pos, (id pos, pos_fen pos))
      <$> filter (λ pos, ¬ known (id pos) results) positions
  ∧ fill_queue (load_results None) positions
    = (λ pos, (id pos, pos_fen pos)) <$> positions.
Proof.
  split; [apply fill_queue_filter|].
  induction positions as [|pos rest IH]; [done|]. simpl in *. by rewrite IH.
Qed.

Lemma fold_set_untouched {V} (members : list (string * V)) (d : dict V) s :
  s ∉ members.*1 →
  dict_get (KStr s)
    (fold_left (λ d kv, dict_set (KStr kv.1) kv.2 d) members d)
  = dict_get (KStr s) d.
Proof.
  revert d. induction members as [|[s0 v0] ms IH]; intros d; simpl; [done|].
  rewrite not_elem_of_cons. intros [Hne Hms].
  rewrite IH by done. apply dict_get_set_ne. congruence.
Qed.

Lemma fold_set_get {V} (members : list (string * V)) (d : dict V) s v :
  NoDup members.*1 →
  (s, v) ∈ members →
  dict_get (KStr s)
    (fold_left (λ d kv, dict_set (KStr kv.1) kv.2 d) members d)
  = Some v.
Proof.
  revert d. induction members as [|[s0 v0] ms IH]; intros d; simpl.
  - intros _ H. by apply elem_of_nil in H.
  - intros [Hfresh Hnd]%NoDup_cons Hin.
    apply elem_of_cons in Hin as [[= -> ->]|Hin].
    + rewrite fold_set_untouched by done. apply dict_get_set.
    + by apply IH.
Qed.

Lemma dict_get_elem {V} (k : pykey) (v : V) (d : dict V) :
  dict_get k d = Some v → (k, v) ∈ d.
Proof.
  induction d as [|[k0 v0] d IH]; simpl; [done|].
  destruct (decide (k0 = k)) as [->|_].
  - intros [= ->]. apply list_elem_of_here.
  - intros H. by apply list_elem_of_further, IH.
Qed.

Lemma json_members_fst {V} (d : dict V) :
  (json_members d).*1 = py_str <$> d.*1.
Proof. induction d as [|[k v] d IH]; [done|]. simpl. by f_equal. Qed.

(** X15.  A result survives a save and a reload under the string of its
    id, as long as no two ids of the dict are saved under the same
    string. *)
Theorem saved_result_is_loaded_back {V} (d : dict V) k v :
  NoDup (py_str <$> d.*1) →
  dict_get k d = Some v →
  dict_get (KStr (py_str k)) (json_load (json_members d)) = Some v.
Proof.
  intros Hnd Hget. unfold json_load. apply fold_set_get.
  - by rewrite json_members_fst.
  - apply dict_get_elem in Hget. unfold json_members.
    apply list_elem_of_fmap. by exists (k, v).
Qed.

Lemma saved_result_is_loaded_back_witness :
  let v1 := {| fen := "fen 1"; jr_depth := 0; jr_pvs := [];
               analyzedAt := "2025-01-05T10:00:00" |} in
  let v2 := {| fen := "fen 2"; jr_depth := 0; jr_pvs := [];
               analyzedAt := "2025-01-05T10:00:20" |} in
  let d := [(KStr "1", v1); (KInt 2, v2)] in
  dict_get (KStr "2") (json_load (json_members d)) = Some v2.
Proof.
  intros v1 v2 d.
  apply (saved_result_is_loaded_back d (KInt 2) v2).
  - vm_compute. repeat constructor;
      rewrite ?elem_of_cons, ?elem_of_nil; intuition congruence.
  - reflexivity.
Defined.

Lemma fill_queue_all_known results positions :
  (∀ pos, pos ∈ positions → known (id pos) results) →
  fill_queue results positions = [].
Proof.
  intros Hall. rewrite fill_queue_filter.
  induction positions as [|pos rest IH]; [done|].
  rewrite filter_cons, decide_False.
  - apply IH. intros q Hq. by apply Hall, list_elem_of_further.
  - intros H. apply H, Hall, list_elem_of_here.
Qed.

(** X16.  When a worker finishes the whole queue of a run and the
    results are saved, the next run finds nothing left to analyze: every
    position is either in the file from before or was recorded by the
    worker. *)
Theorem finished_run_leaves_an_empty_queue fuel p sh positions :
  let task_queue := fill_queue (results sh) positions in
  accepts (3 * length task_queue + 1) p →
  answers fuel (length task_queue) (stdout p) = true →
  ∃ sh',
    worker_loop fuel p task_queue sh = (Finished, [], sh')
    ∧ fill_queue (load_results (Some (json_members (results sh')))) positions
      = [].
Proof.
  intros task_queue Ha Hans.
  destruct (worker_loop_finishes fuel p task_queue sh Ha Hans)
    as (sh' & Hloop & _ & Hall).
  exists sh'. split; [done|]. apply fill_queue_all_known.
  intros pos Hpos. simpl. apply known_reload.
  destruct (decide (id pos ∈ task_queue.*1)) as [Hq|Hq].
  - left. destruct (Hall _ Hq) as (v & Hv & _).
    unfold dict_in. rewrite bool_decide_eq_true, Hv. eauto.
  - assert (Hk : known (id pos) (results sh)).
    { apply known_iff. intros [H1 H2]. apply Hq, fill_queue_ids.
      split; [by apply list_elem_of_fmap_2|done]. }
    eapply known_evolves; [|exact Hk].
    pose proof (worker_loop_evolves fuel p task_queue sh) as Hev.
    by rewrite Hloop in Hev.
Qed.

Lemma finished_run_leaves_an_empty_queue_witness :
  let old := {| fen := "fen 1"; jr_depth := 0; jr_pvs := [];
                analyzedAt := "2025-01-04T09:00:00" |} in
  let p := {| pipe := None;
              stdout := ["bestmove e2e4"; "info depth 1 score cp 9 pv a2a3";
                         "bestmove a2a3"];
              sent := handshake_commands |} in
  let sh := {| results := load_results (Some [("1", old)]);
               progress_done := 0; progress_last := EmptyString;
               clock := [] |} in
  let pos n := {| id := KInt n; pos_fen := "fen " +:+ PyStr.of_int n |} in
  let positions := [pos 1; pos 2; pos 3] in
  ∃ sh',
    worker_loop 3 p (fill_queue (results sh) positions) sh
    = (Finished, [], sh')
    ∧ fill_queue (load_results (Some (json_members (results sh')))) positions
      = [].
Proof.
  intros old p sh pos positions.
  apply (finished_run_leaves_an_empty_queue 3 p sh positions).
  - exact I.
  - reflexivity.
Defined.

Lemma dict_set_fresh {V} (k : pykey) (v : V) (d : dict V) :
  k ∉ d.*1 → dict_set k v d = d ++ [(k, v)].
Proof.
  induction d as [|[k0 v0] d IH]; simpl; [done|].
  rewrite not_elem_of_cons. intros [Hne Hd].
  rewrite decide_False by congruence. by rewrite IH.
Qed.

Lemma dict_set_nodup {V} (k : pykey) (v : V) (d : dict V) :
  NoDup d.*1 → NoDup (dict_set k v d).*1.
Proof.
  induction d as [|[k0 v0] d IH]; simpl.
  - intros _. apply NoDup_singleton.
  - intros [Hfresh Hnd]%NoDup_cons.
    destruct (decide (k0 = k)) as [->|Hne]; simpl.
    + by apply NoDup_cons.
    + apply NoDup_cons. split; [|by apply IH].
      rewrite dict_set_keys. intros [?|?]; [congruence|done].
Qed.

(** A loaded dict has every key once, and all its keys are strings. *)
Lemma json_load_shape {V} (members : list (string * V)) :
  NoDup (json_load members).*1
  ∧ Forall (λ k, ∃ s, k = KStr s) (json_load members).*1.
Proof.
  split.
  - assert (Hgen : ∀ d : dict V, NoDup d.*1 →
              NoDup (fold_left (λ d kv, dict_set (KStr kv.1) kv.2 d)
                       members d).*1).
    { induction members as [|[s v] ms IH]; intros d Hd; [done|].
      simpl. apply IH. by apply dict_set_nodup. }
    apply Hgen. constructor.
  - apply Forall_forall. intros k Hk.
    apply json_load_keys in Hk as (s & -> & _). by exists s.
Qed.

Lemma load_members_appends {V} (d d0 : dict V) :
  NoDup d.*1 →
  Forall (λ k, ∃ s, k = KStr s) d.*1 →
  (∀ k, k ∈ d.*1 → k ∉ d0.*1) →
  fold_left (λ d kv, dict_set (KStr kv.1) kv.2 d) (json_members d) d0
  = d0 ++ d.
Proof.
  revert d0. induction d as [|[k v] d IH]; intros d0; simpl.
  - intros _ _ _. by rewrite app_nil_r.
  - intros [Hfresh Hnd]%NoDup_cons [[s ->] Hstr]%Forall_cons Hdis. simpl.
    rewrite dict_set_fresh by (apply Hdis, list_elem_of_here).
    rewrite IH; [by rewrite <- app_assoc|done|done|].
    intros k Hk. rewrite fmap_app, not_elem_of_app. split.
    + by apply Hdis, list_elem_of_further.
    + simpl. rewrite not_elem_of_cons. split; [|apply not_elem_of_nil].
      intros ->. by apply Hfresh.
Qed.

(** X17.  Saving the dict a run has loaded and loading it again gives
    the same dict back, entries and order: a resume that adds nothing
    changes nothing. *)
Theorem reload_of_a_loaded_dict_is_stable {V} (members : list (string * V)) :
  json_load (json_members (json_load members)) = json_load members.
Proof.
  destruct (json_load_shape members) as [Hnd Hstr].
  unfold json_load at 1. rewrite load_members_appends; [done..|].
  intros k _. apply not_elem_of_nil.
Qed.

(** ** Saves in a row *)

(** X18.  A later save starts by emptying the file again: once it has
    begun, nothing of the earlier checkpoint is left, and a process that
    stops after [j] of its writes leaves a prefix, possibly empty, of
    the first [j] pieces of the later text. *)
Theorem later_save_discards_the_earlier_one
    (old : output_file) (first second : list (string * nat)) (j : nat) :
  ∃ t,
    crash_after (S (S (length first)) + S j) (save first ++ save second) old
    = Some t
    ∧ String.prefix t (concat_str (take j second.*1)) = true.
Proof.
  unfold crash_after.
  assert (Hlen : length (save first) = S (S (length first))).
  { unfold save. simpl. rewrite length_app, length_fmap. simpl. lia. }
  rewrite <- Hlen, take_app_add, fold_left_app.
  destruct (save_run second
              (fold_left run_op (save first)
                 {| on_disk := old; held := EmptyString |}) j)
    as (t & b & Ht & Heq & _).
  exists t. split; [done|]. rewrite <- Heq. apply prefix_append.
Qed.
